(** * Secure linkage: the demonstration driver and the engine it exercises

    [secure-linkage.cc] builds a 2048 x 512 matrix of bits, encrypts it as the
    left operand, encrypts its first two rows as the two columns of the right
    operand, multiplies under encryption, decrypts, and compares the result
    with a plaintext reference ([mat_vec_prod]) through [check_result].

    The first part of this file embeds the C++ of the driver.  The second
    part models the engine behind [seclink.h], whose implementation is not
    among the sources, from its specification. *)

From Stdlib Require Import ZArith List String Ascii DecimalString Lia.
From stdpp Require Import base gmap.
Import ListNotations.

Local Open Scope Z_scope.

(** ** C++ values and undefined behaviour

    Signed arithmetic that leaves the range of its type and indexing outside
    a container are undefined in C++; the embedding makes both explicit
    outcomes.  Unsigned arithmetic and conversions to a narrower integer
    type are modular. *)
Module Cxx.

Inductive undefined : Type :=
| OutOfBounds
| SignedOverflow.

Inductive outcome (A : Type) : Type :=
| Ret (a : A)
| Undef (u : undefined).
Arguments Ret {A} a.
Arguments Undef {A} u.

Definition bind {A B : Type} (m : outcome A) (k : A -> outcome B) : outcome B :=
  match m with
  | Ret a => k a
  | Undef u => Undef u
  end.

Declare Scope cxx_scope.
Delimit Scope cxx_scope with cxx.
Notation "x <~ m ; k" := (bind m (fun x => k))
  (at level 20, m at level 100, k at level 200, only parsing) : cxx_scope.

(** [int64_t] and [long] (64 bits on the LP64 targets the library builds
    for) *)
Definition INT64_MIN : Z := - 2 ^ 63.
Definition INT64_MAX : Z := 2 ^ 63 - 1.
Definition in_int64 (z : Z) : bool := (INT64_MIN <=? z) && (z <=? INT64_MAX).

Definition checked64 (z : Z) : outcome Z :=
  if in_int64 z then Ret z else Undef SignedOverflow.
Definition mul64 (a b : Z) : outcome Z := checked64 (a * b).
Definition add64 (a b : Z) : outcome Z := checked64 (a + b).

(** [int] *)
Definition INT_MIN : Z := - 2 ^ 31.
Definition INT_MAX : Z := 2 ^ 31 - 1.
Definition in_int (z : Z) : bool := (INT_MIN <=? z) && (z <=? INT_MAX).

(** [++n] on an [int] *)
Definition incr_int (n : Z) : outcome Z :=
  if in_int (n + 1) then Ret (n + 1) else Undef SignedOverflow.

(** [(int)i] for a [size_t i] *)
Definition to_int (z : Z) : Z := (z + 2 ^ 31) mod 2 ^ 32 - 2 ^ 31.

(** [size_t] arithmetic *)
Definition SIZE_MOD : Z := 2 ^ 64.
Definition size_mul (a b : Z) : Z := (a * b) mod SIZE_MOD.

(** [v[i]] on a [std::vector] *)
Definition index {A : Type} (v : list A) (i : nat) : outcome A :=
  match nth_error v i with
  | Some x => Ret x
  | None => Undef OutOfBounds
  end.

(** [operator<<] on an integer *)
Definition show_Z (z : Z) : string := NilZero.string_of_int (Z.to_int z).
Definition show_size (n : nat) : string := show_Z (Z.of_nat n).

Definition endl : string := String (ascii_of_nat 10) EmptyString.

End Cxx.

Import Cxx.
Local Open Scope cxx_scope.

(** ** The plaintext reference of the driver *)

(** [typedef std::vector<int64_t> CLK] *)
Abbreviation CLK := (list Z).

(** [std::inner_product(first1, last1, first2, init)] with a [long]
    accumulator: one element of the second range is read for every element
    of the first. *)
Fixpoint inner_product (first1 first2 : list Z) (init : Z) : outcome Z :=
  match first1 with
  | [] => Ret init
  | x :: rest1 =>
      match first2 with
      | [] => Undef OutOfBounds
      | y :: rest2 =>
          p <~ mul64 x y;
          acc <~ add64 init p;
          inner_product rest1 rest2 acc
      end
  end.

(** The body of the range-for of [mat_vec_prod]: two [push_back]s per CLK. *)
Fixpoint mat_vec_prod_loop (clks : list CLK) (row1 row2 : CLK) (res : list Z)
  : outcome (list Z) :=
  match clks with
  | [] => Ret res
  | clk :: rest =>
      a <~ inner_product clk row1 0;
      b <~ inner_product clk row2 0;
      mat_vec_prod_loop rest row1 row2 ((res ++ [a]) ++ [b])
  end.

Definition mat_vec_prod (clks : list CLK) : outcome (list Z) :=
  row1 <~ index clks 0;
  row2 <~ index clks 1;
  mat_vec_prod_loop clks row1 row2 [].

(** The exact integer inner product over the length of the first vector. *)
Fixpoint dot (a b : list Z) : Z :=
  match a, b with
  | x :: a', y :: b' => x * y + dot a' b'
  | _, _ => 0
  end.

(** Every product and every running sum of [inner_product a b acc] is
    representable in 64 bits. *)
Fixpoint fits64 (a b : list Z) (acc : Z) : bool :=
  match a, b with
  | x :: a', y :: b' =>
      in_int64 (x * y) && in_int64 (acc + x * y) && fits64 a' b' (acc + x * y)
  | _, _ => true
  end.

(** ** [check_result]

    The two vectors are bound by const reference; the embedding keeps them,
    the console and the number of element comparisons performed so far in
    one record and threads it through the function. *)
Record machine : Type := Machine {
  vec_expected : list Z;
  vec_output : list Z;
  cout : string;
  compared : nat
}.

(** [cout << s] *)
Definition print (s : string) (m : machine) : machine :=
  {| vec_expected := vec_expected m; vec_output := vec_output m;
     cout := (cout m ++ s)%string; compared := compared m |}.

Definition tick (m : machine) : machine :=
  {| vec_expected := vec_expected m; vec_output := vec_output m;
     cout := cout m; compared := S (compared m) |}.

(** one evaluation of [output[i] != expected[i]] *)
Definition differ_at (i : nat) (m : machine) : outcome (bool * machine) :=
  o <~ index (vec_output m) i;
  e <~ index (vec_expected m) i;
  Ret (negb (o =? e), tick m).

(** [m'] is [m] after [k] more comparisons and nothing else. *)
Definition only_compared (k : nat) (m m' : machine) : Prop :=
  vec_expected m' = vec_expected m /\ vec_output m' = vec_output m /\
  cout m' = cout m /\ compared m' = (compared m + k)%nat.

(** The [for] loop of [check_result], with [n] iterations left before [i]
    reaches [output.size()]. *)
Fixpoint check_loop (n i : nat) (first_wrong nwrong : Z) (m : machine)
  : outcome (Z * Z * machine) :=
  match n with
  | O => Ret (first_wrong, nwrong, m)
  | S n' =>
      dm <~ differ_at i m;
      if fst dm then
        nwrong' <~ incr_int nwrong;
        let first_wrong' :=
          if first_wrong <? 0 then to_int (Z.of_nat i) else first_wrong in
        check_loop n' (S i) first_wrong' nwrong' (snd dm)
      else check_loop n' (S i) first_wrong nwrong (snd dm)
  end.

Definition dimension_error (pre : string) (m : machine) : string :=
  (pre ++ ": dimension error: expected size "
       ++ show_size (length (vec_expected m)) ++ ", got size "
       ++ show_size (length (vec_output m)) ++ endl)%string.

Definition failures (pre : string) (nwrong first_wrong : Z) (m : machine) : string :=
  (pre ++ ": " ++ show_Z nwrong ++ "/" ++ show_size (length (vec_output m))
       ++ " failures (first: " ++ show_Z first_wrong ++ ")" ++ endl)%string.

Definition check_result (pre : string) (m : machine) : outcome machine :=
  if negb (length (vec_output m) =? length (vec_expected m))%nat then
    Ret (print (dimension_error pre m) m)
  else
    r <~ check_loop (length (vec_output m)) 0 (-1) 0 m;
    let '(first_wrong, nwrong, m') := r in
    if 0 <? nwrong then Ret (print (failures pre nwrong first_wrong m') m')
    else Ret m'.

(** ** The data of [main] *)

Definition plain_mod : Z := 40961.
Definition poldeg : nat := 4096.
Definition nclks : nat := poldeg / 2.
Definition clksz : nat := 512.

(** [(i*17 % 31) & 1] for a [size_t i] *)
Definition Linmat_at (i : nat) : Z :=
  Z.land (size_mul (Z.of_nat i) 17 mod 31) 1.

Definition Linmat : list Z := map Linmat_at (seq 0 (nclks * clksz)).

(** [vector<int64_t> &Rinmat = Linmat]: the same object under another name *)
Definition Rinmat : list Z := Linmat.

Definition nrows : nat := nclks.

(** The loop filling [clks]: [n] rows left, [iter] the offset of the
    iterator into the buffer.  Every range that [main] copies lies inside
    the buffer (see [clks_row_length]). *)
Fixpoint slice_clks (n iter : nat) (buf : list Z) : list CLK :=
  match n with
  | O => []
  | S n' => firstn clksz (skipn iter buf) :: slice_clks n' (iter + clksz) buf
  end.

Definition clks : list CLK := slice_clks nclks 0 Linmat.

(** Element [(i, j)] of a flat buffer read as a row-major matrix with
    [cols] columns, and read as a column-major matrix with [rows] rows. *)
Definition row_major (buf : list Z) (cols i j : nat) : Z :=
  nth (i * cols + j) buf 0.

Definition column_major (buf : list Z) (rows i j : nat) : Z :=
  nth (j * rows + i) buf 0.

Definition bit (x : Z) : Prop := x = 0 \/ x = 1.

Definition expected : outcome (list Z) := mat_vec_prod clks.

(** ** The engine

    The implementation behind [seclink.h] is not among the sources; every
    definition from here to the handles is modelled from the specification
    of the engine.  Encryption is represented by its ideal functionality: a
    ciphertext is the vector of plaintext slots it decrypts to, a
    homomorphic operation acts slot-wise modulo the plaintext modulus, and a
    rotation shifts the slots cyclically.  Keys and noise therefore do not
    appear; the noise budget enters only through the validation of the
    parameters. *)

(** Modelled from the spec: the error taxonomy of section 7; the status
    codes of [seclink.h] are not among the sources. *)
Inductive error : Type :=
| InvalidParameters
| DimensionMismatch
| NoiseBudgetExhausted
| AllocationFailure
| KeyGenerationFailure.

Inductive result (A : Type) : Type :=
| Ok (a : A)
| Err (e : error).
Arguments Ok {A} a.
Arguments Err {A} e.

Definition bind_result {A B : Type} (m : result A) (f : A -> result B) : result B :=
  match m with
  | Ok a => f a
  | Err e => Err e
  end.

(** Modelled from the spec: the Context of section 3 ([seclink_ctx_t], whose
    declaration is not among the sources), reduced to the two scheme
    parameters every operation reads. *)
Record Context : Type := {
  ring_dimension : nat;
  plaintext_modulus : Z
}.

(** Modelled from the spec: the packing kinds of section 3. *)
Inductive PackingKind : Type :=
| LeftRowPacked
| RightColumnPacked
| Product.

(** Modelled from the spec: a ciphertext, as the slots it decrypts to. *)
Definition Ciphertext : Type := list Z.

(** Modelled from the spec: the EncryptedMatrix of section 3
    ([seclink_emat_t], whose declaration is not among the sources). *)
Record EncryptedMatrix : Type := {
  shape : nat * nat;
  packing_kind : PackingKind;
  ciphertexts : list Ciphertext
}.

Definition tabulate {A : Type} (n : nat) (f : nat -> A) : list A :=
  map f (seq 0 n).

(** *** Validation of the parameters *)

(** Modelled from the spec: the power-of-two test of section 4.1: halve
    while even. *)
Fixpoint is_pow2_pos (p : positive) : bool :=
  match p with
  | xH => true
  | xO q => is_pow2_pos q
  | xI _ => false
  end.

Definition is_pow2 (n : nat) : bool :=
  match Z.of_nat n with
  | Zpos p => is_pow2_pos p
  | _ => false
  end.

(** Modelled from the spec: the primality test of section 4.1, by trial
    division: none of the [fuel] numbers from [d] on divides [p]. *)
Fixpoint no_divisor (fuel : nat) (d p : Z) : bool :=
  match fuel with
  | O => true
  | S fuel' => negb (p mod d =? 0) && no_divisor fuel' (d + 1) p
  end.

Definition is_prime (p : Z) : bool :=
  (1 <? p) && no_divisor (Z.to_nat (p - 2)) 2 p.

(** Modelled from the spec: a prime admitting full SIMD batching for the
    ring dimension (section 4.1).  A plaintext modulus gives as many slots
    as the ring dimension when it is a prime congruent to 1 modulo twice
    the ring dimension. *)
Definition batching_prime (n : nat) (p : Z) : bool :=
  is_prime p && (p mod (2 * Z.of_nat n) =? 1).

Section Validation.

(** Which ring dimensions the scheme offers, and whether the modulus chain
    derived from the parameters and the optional tuning hints leaves noise
    budget for one multiplication and one rotation pass, are properties of
    the underlying scheme library; they are parameters here. *)
Variable Options : Type.
Variable supported_dimension : nat -> bool.
Variable budget_sufficient : nat -> Z -> option Options -> bool.

(** Modelled from the spec: [create_context] of section 4.1, the init
    context operation of section 6 ([seclink_init_ctx], whose
    implementation is not among the sources). *)
Definition create_context (n : nat) (p : Z) (extra_options : option Options)
  : result Context :=
  if negb (is_pow2 n && supported_dimension n) then Err InvalidParameters
  else if negb (batching_prime n p) then Err InvalidParameters
  else if negb (budget_sufficient n p extra_options) then Err InvalidParameters
  else Ok {| ring_dimension := n; plaintext_modulus := p |}.

End Validation.

Arguments create_context {Options} _ _ _ _ _.

(** *** Slot-wise operations *)

(** Modelled from the spec: ciphertext-by-ciphertext multiplication of
    section 4.5, slot by slot. *)
Definition ct_mul (p : Z) (a b : Ciphertext) : Ciphertext :=
  map (fun xy => (fst xy * snd xy) mod p) (combine a b).

(** Modelled from the spec: homomorphic addition of section 4.5. *)
Definition ct_add (p : Z) (a b : Ciphertext) : Ciphertext :=
  map (fun xy => (fst xy + snd xy) mod p) (combine a b).

(** Modelled from the spec: the rotation of section 4.5, cyclic by [k]
    slots: slot [s] of the result is slot [s + k] of the argument. *)
Definition rotate (k : nat) (a : Ciphertext) : Ciphertext :=
  skipn k a ++ firstn k a.

(** Modelled from the spec: the rotate-and-add tree of section 4.5, with
    the power-of-two steps [2^(m-1)], ..., 2, 1. *)
Fixpoint rotate_and_add (p : Z) (m : nat) (a : Ciphertext) : Ciphertext :=
  match m with
  | O => a
  | S m' => rotate_and_add p m' (ct_add p a (rotate (2 ^ m') a))
  end.

(** Every slot of the ciphertext is a residue modulo [p]. *)
Definition reduced (p : Z) (a : Ciphertext) : Prop :=
  forall s, (s < length a)%nat -> nth s a 0 mod p = nth s a 0.

(** The number of halving steps for rows of [cols] entries. *)
Definition tree_depth (cols : nat) : nat := Nat.log2_up cols.

(** *** The packers *)

(** Modelled from the spec: the Left Packer of section 4.3
    ([seclink_encrypt_left], whose implementation is not among the
    sources).  One row per slot vector, in row order: row [i] of the
    row-major buffer is ciphertext [i] and occupies slots [0 .. cols). *)
Definition pack_row (ctx : Context) (buf : list Z) (cols i : nat) : Ciphertext :=
  tabulate (ring_dimension ctx)
    (fun s => if (s <? cols)%nat
              then row_major buf cols i s mod plaintext_modulus ctx
              else 0).

Definition encrypt_left (ctx : Context) (buf : list Z) (rows cols : nat)
  : result EncryptedMatrix :=
  if (cols <=? ring_dimension ctx)%nat then
    Ok {| shape := (rows, cols);
          packing_kind := LeftRowPacked;
          ciphertexts := tabulate rows (pack_row ctx buf cols) |}
  else Err InvalidParameters.

(** Modelled from the spec: the Right Packer of section 4.4
    ([seclink_encrypt_right], whose implementation is not among the
    sources).  Column [c] of the probe is ciphertext [c], aligned with the
    rows of the left packing.  The driver hands the probe over as the
    concatenation of its columns ([secure-linkage.cc], lines 123-124 and
    147): column [c] of a [rows x k] probe is the run
    [buf[c*rows .. c*rows + rows)]. *)
Definition pack_column (ctx : Context) (buf : list Z) (rows c : nat) : Ciphertext :=
  tabulate (ring_dimension ctx)
    (fun s => if (s <? rows)%nat
              then column_major buf rows s c mod plaintext_modulus ctx
              else 0).

Definition encrypt_right (ctx : Context) (buf : list Z) (rows k : nat)
  : result EncryptedMatrix :=
  if (rows <=? ring_dimension ctx)%nat then
    Ok {| shape := (rows, k);
          packing_kind := RightColumnPacked;
          ciphertexts := tabulate k (pack_column ctx buf rows) |}
  else Err InvalidParameters.

(** *** The multiplier *)

(** Modelled from the spec: the Homomorphic Multiplier of section 4.5
    ([seclink_multiply], whose implementation is not among the sources).
    For column [c] and row [i] the slot-wise product is folded by the
    rotate-and-add tree, which leaves the sum of the row in slot 0; the
    reduced ciphertexts are assembled column by column, row [i] of column
    [c] at position [c * rows + i]. *)
Definition multiply (ctx : Context) (left right : EncryptedMatrix)
  : result EncryptedMatrix :=
  match packing_kind left, packing_kind right with
  | LeftRowPacked, RightColumnPacked =>
      if (snd (shape left) =? fst (shape right))%nat then
        let rows := fst (shape left) in
        let p := plaintext_modulus ctx in
        Ok {| shape := (rows, snd (shape right));
              packing_kind := Product;
              ciphertexts :=
                tabulate (snd (shape right) * rows)
                  (fun t =>
                     rotate_and_add p (tree_depth (snd (shape left)))
                       (ct_mul p (nth (t mod rows) (ciphertexts left) [])
                                 (nth (t / rows) (ciphertexts right) []))) |}
      else Err DimensionMismatch
  | _, _ => Err DimensionMismatch
  end.

(** *** The decoder *)

(** Modelled from the spec: the centring of section 4.6: the representative
    of [v] modulo [p] in the symmetric range. *)
Definition centre (p v : Z) : Z :=
  let r := v mod p in if p <? 2 * r then r - p else r.

(** Modelled from the spec: the slot that holds entry [(i, j)] of a packed
    matrix, by the conventions of the packers and of the multiplier. *)
Definition slot_of (em : EncryptedMatrix) (i j : nat) : Z :=
  match packing_kind em with
  | LeftRowPacked => nth j (nth i (ciphertexts em) []) 0
  | RightColumnPacked => nth i (nth j (ciphertexts em) []) 0
  | Product => nth 0 (nth (j * fst (shape em) + i) (ciphertexts em) []) 0
  end.

(** Modelled from the spec: the Decoder of section 4.6 ([seclink_decrypt],
    whose implementation is not among the sources).  The output buffer is
    row-major. *)
Definition decrypt (ctx : Context) (rows cols : nat) (em : EncryptedMatrix)
  : result (list Z) :=
  if (fst (shape em) =? rows)%nat && (snd (shape em) =? cols)%nat then
    Ok (tabulate (rows * cols)
          (fun t => centre (plaintext_modulus ctx)
                      (slot_of em (t / cols) (t mod cols))))
  else Err DimensionMismatch.

(** *** The plaintext product *)

Fixpoint sum_upto (n : nat) (f : nat -> Z) : Z :=
  match n with
  | O => 0
  | S n' => sum_upto n' f + f n'
  end.

(** Entry [(i, c)] of the product of a row-major buffer with [cols] columns
    and a probe given column after column, each of [cols] entries. *)
Definition entry (L R : list Z) (cols i c : nat) : Z :=
  sum_upto cols (fun j => row_major L cols i j * column_major R cols j c).

(** The product as a row-major [rows x k] buffer. *)
Definition mat_mul (L R : list Z) (rows cols k : nat) : list Z :=
  tabulate (rows * k) (fun t => entry L R cols (t / k) (t mod k)).

(** Encrypt both operands, multiply, decrypt. *)
Definition pipeline (ctx : Context) (L R : list Z) (rows cols k : nat)
  : result (list Z) :=
  bind_result (encrypt_left ctx L rows cols) (fun left =>
  bind_result (encrypt_right ctx R cols k) (fun right =>
  bind_result (multiply ctx left right) (fun prod =>
  decrypt ctx rows k prod))).

(** Encrypt one matrix with the left packer and decrypt it again. *)
Definition round_trip (ctx : Context) (M : list Z) (rows cols : nat)
  : result (list Z) :=
  bind_result (encrypt_left ctx M rows cols) (decrypt ctx rows cols).

(** ** Handles

    The driver holds every encrypted matrix through an opaque handle that
    the engine creates and that the driver releases. *)

(** Modelled from the spec: the live objects behind the handles of section
    6 ([seclink_emat_t] values, whose representation is not among the
    sources). *)
Record Session : Type := {
  objects : gmap nat EncryptedMatrix;
  next_handle : nat
}.

Definition new_session : Session :=
  {| objects := ∅; next_handle := O |}.

(** Modelled from the spec: section 7, no partial success.  A successful
    operation publishes its result under a fresh handle; a failed one
    leaves the session as it was. *)
Definition publish (s : Session) (r : result EncryptedMatrix)
  : result nat * Session :=
  match r with
  | Ok em =>
      (Ok (next_handle s),
       {| objects := <[next_handle s := em]> (objects s);
          next_handle := S (next_handle s) |})
  | Err e => (Err e, s)
  end.

(** Modelled from the spec: the operations of section 6 on handles, whose
    implementation is not among the sources.  A handle that does not name a
    live object is a programming error outside the specification; the
    operations are undefined ([None]) on it. *)
Definition seclink_encrypt_left (s : Session) (ctx : Context) (buf : list Z)
    (rows cols : nat) : result nat * Session :=
  publish s (encrypt_left ctx buf rows cols).

Definition seclink_encrypt_right (s : Session) (ctx : Context) (buf : list Z)
    (rows cols : nat) : result nat * Session :=
  publish s (encrypt_right ctx buf rows cols).

Definition seclink_multiply (s : Session) (ctx : Context) (left right : nat)
  : option (result nat * Session) :=
  match objects s !! left, objects s !! right with
  | Some l, Some r => Some (publish s (multiply ctx l r))
  | _, _ => None
  end.

Definition seclink_decrypt (s : Session) (ctx : Context) (rows cols : nat)
    (prod : nat) : option (result (list Z)) :=
  match objects s !! prod with
  | Some em => Some (decrypt ctx rows cols em)
  | None => None
  end.

Definition seclink_clear_emat (s : Session) (h : nat) : option Session :=
  match objects s !! h with
  | Some _ => Some {| objects := delete h (objects s);
                      next_handle := next_handle s |}
  | None => None
  end.

(** ** The engine calls of [main]

    From the encryption of the left operand to the decryption into
    [output].  The driver does not look at the status the calls return:
    after a failed call it would go on with a handle that was never set,
    which is [None] here. *)
Definition engine_calls (ctx : Context) (L R : list Z) (rows cols k : nat)
  : option (list Z) :=
  match seclink_encrypt_left new_session ctx L rows cols with
  | (Ok hleft, s1) =>
      match seclink_encrypt_right s1 ctx R cols k with
      | (Ok hright, s2) =>
          match seclink_multiply s2 ctx hleft hright with
          | Some (Ok hprod, s3) =>
              match seclink_decrypt s3 ctx rows k hprod with
              | Some (Ok out) => Some out
              | _ => None
              end
          | _ => None
          end
      | _ => None
      end
  | _ => None
  end.

(** [output] after [seclink_decrypt(ctx, output.data(), nrows, 2, prod, ...)] *)
Definition output (ctx : Context) : option (list Z) :=
  engine_calls ctx Linmat Rinmat nrows clksz 2.

(** ** The rest of the driver

    What the comparison of [check_result] counts, [print_parameters], and
    [main] as a whole. *)

(** The number of positions at which two vectors differ, and the first of
    them. *)
Fixpoint count_mismatch (o e : list Z) : nat :=
  match o, e with
  | x :: o', y :: e' => (if x =? y then 0 else 1) + count_mismatch o' e'
  | _, _ => 0
  end.

Fixpoint first_mismatch (o e : list Z) : option nat :=
  match o, e with
  | x :: o', y :: e' =>
      if x =? y then option_map S (first_mismatch o' e') else Some O
  | _, _ => None
  end.

(** [seal::scheme_type]; the header is not among the sources, and the
    [switch] of [print_parameters] tells the two named schemes from every
    other value. *)
Inductive scheme_type : Type :=
| BFV
| CKKS
| other_scheme.

(** What [print_parameters] reads of a [SEALContext], through
    [first_context_data()] and [parms()]. *)
Record SEALContext : Type := {
  scheme : scheme_type;
  poly_modulus_degree : nat;
  total_coeff_modulus_bit_count : Z;
  plain_modulus_value : Z
}.

(** [std::invalid_argument] *)
Inductive raised : Type :=
| invalid_argument (what : string).

Definition scheme_name_of (s : scheme_type) : option string :=
  match s with
  | BFV => Some "BFV"%string
  | CKKS => Some "CKKS"%string
  | other_scheme => None
  end.

Section Console.

(** How [operator<<] renders the constant
    [seal::util::global_variables::noise_standard_deviation], a [double]
    of the library. *)
Variable noise_standard_deviation : string.

(** [print_parameters]: the console after the call, and the exception it
    left with, if any.  A null [shared_ptr] is [None]. *)
Definition print_parameters (context : option SEALContext) (console : string)
  : string * option raised :=
  match context with
  | None => (console, Some (invalid_argument "context is not set"))
  | Some context_data =>
      match scheme_name_of (scheme context_data) with
      | None => (console, Some (invalid_argument "unsupported scheme"))
      | Some scheme_name =>
          let console :=
            (console ++ "/ Encryption parameters:" ++ endl
               ++ "| scheme: " ++ scheme_name ++ endl
               ++ "| poly_modulus_degree: "
               ++ show_size (poly_modulus_degree context_data) ++ endl
               ++ "| coeff_modulus size: "
               ++ show_Z (total_coeff_modulus_bit_count context_data)
               ++ " bits" ++ endl)%string in
          let console :=
            match scheme context_data with
            | BFV =>
                (console ++ "| plain_modulus: "
                   ++ show_Z (plain_modulus_value context_data) ++ endl)%string
            | _ => console
            end in
          ((console ++ "\ noise_standard_deviation: "
              ++ noise_standard_deviation ++ endl ++ endl)%string, None)
      end
  end.

(** How [main] ends: [return 0], an exception nobody catches, or
    undefined behaviour. *)
Inductive ending : Type :=
| Returns (code : Z)
| Uncaught (e : raised)
| Undefined (u : undefined).

(** The lines [main] prints around the four engine calls. *)
Definition progress : string :=
  ("encrypting left..." ++ endl ++ "encrypting right..." ++ endl
     ++ "multiplying..." ++ endl ++ "decrypting..." ++ endl)%string.

(** The end of [main], from [check_result] on: [reference] is what
    [mat_vec_prod(clks)] came to. *)
Definition main_check (reference : outcome (list Z)) (output : list Z)
    (console : string) : string * ending :=
  match reference with
  | Undef u => (console, Undefined u)
  | Ret expected =>
      match check_result "emat  vec" (Machine expected output console 0) with
      | Undef u => (console, Undefined u)
      | Ret m => ((cout m ++ "cleaning up..." ++ endl)%string, Returns 0)
      end
  end.

(** [main].  The engine is outside: [context] is what [ctx->context] holds
    after [seclink_init_ctx], and [written t] is what element [t] of
    [output] holds after [seclink_decrypt] (the vector has [nclks * 2]
    elements since [output.resize(nclks * 2)]).  The engine calls are taken
    to return and to print nothing. *)
Definition main (context : option SEALContext) (written : nat -> Z)
  : string * ending :=
  match print_parameters context ""%string with
  | (console, Some e) => (console, Uncaught e)
  | (console, None) =>
      main_check (mat_vec_prod clks) (tabulate (nclks * 2) written)
        (console ++ progress)%string
  end.

End Console.

(** * Properties *)

(** ** The plaintext reference *)

Example mat_vec_prod_three_clks :
  mat_vec_prod [[1; 0; 1]; [1; 1; 0]; [0; 1; 1]] = Ret [2; 1; 1; 2; 1; 1].
Proof. reflexivity. Qed.

Example mat_vec_prod_ragged :
  mat_vec_prod [[1; 0]; [1]; [0; 1]] = Undef OutOfBounds.
Proof. reflexivity. Qed.

Lemma in_int64_true (z : Z) :
  in_int64 z = true <-> INT64_MIN <= z <= INT64_MAX.
Proof. unfold in_int64. rewrite andb_true_iff, !Z.leb_le. tauto. Qed.

Lemma bind_ret {A B : Type} (m : outcome A) (k : A -> outcome B) (b : B) :
  bind m k = Ret b <-> exists a, m = Ret a /\ k a = Ret b.
Proof.
  destruct m as [a|u]; simpl; split.
  - intros H. exists a. auto.
  - intros (a' & Ha & Hk). inversion Ha. subst. exact Hk.
  - discriminate.
  - intros (a' & Ha & _). discriminate.
Qed.

(** [inner_product] returns exactly when nothing overflows, and then it
    returns the exact sum. *)
Lemma inner_product_fits (a b : list Z) :
  forall acc, (length a <= length b)%nat ->
    fits64 a b acc = true ->
    inner_product a b acc = Ret (acc + dot a b).
Proof.
  revert b. induction a as [|x a IH]; intros b acc Hlen Hfit.
  - simpl. f_equal. lia.
  - destruct b as [|y b]; [simpl in Hlen; lia|].
    simpl in Hfit. apply andb_true_iff in Hfit as [Hfit Hrest].
    apply andb_true_iff in Hfit as [Hmul Hadd].
    simpl. unfold mul64, add64, checked64. rewrite Hmul. simpl. rewrite Hadd.
    simpl. rewrite IH by (simpl in Hlen; auto with arith).
    f_equal. lia.
Qed.

Lemma inner_product_ret (a b : list Z) :
  forall acc v, inner_product a b acc = Ret v ->
    fits64 a b acc = true /\ v = acc + dot a b /\ (length a <= length b)%nat.
Proof.
  revert b. induction a as [|x a IH]; intros b acc v H.
  - simpl in H. inversion H. destruct b; simpl; repeat split; lia.
  - destruct b as [|y b]; [discriminate|].
    simpl in H. unfold mul64, add64, checked64 in H.
    destruct (in_int64 (x * y)) eqn:Hmul; [|discriminate]. simpl in H.
    destruct (in_int64 (acc + x * y)) eqn:Hadd; [|discriminate].
    apply IH in H as (Hf & Hv & Hl).
    simpl. rewrite Hmul, Hadd, Hf. repeat split; [lia | lia].
Qed.

(** With the second range at least as long as the first, no read of
    [inner_product] leaves it. *)
Lemma inner_product_in_bounds (a b : list Z) :
  forall acc, (length a <= length b)%nat ->
    inner_product a b acc <> Undef OutOfBounds.
Proof.
  revert b. induction a as [|x a IH]; intros b acc Hlen.
  - discriminate.
  - destruct b as [|y b]; [simpl in Hlen; lia|].
    simpl. unfold mul64, add64, checked64.
    destruct (in_int64 (x * y)); [|discriminate]. simpl.
    destruct (in_int64 (acc + x * y)); [|discriminate].
    apply IH. simpl in Hlen. lia.
Qed.

Lemma inner_product_short (a b : list Z) :
  forall acc, (length b < length a)%nat ->
    forall v, inner_product a b acc <> Ret v.
Proof.
  intros acc Hlen v H. apply inner_product_ret in H. lia.
Qed.

(** What the loop appends for one CLK *)
Lemma mat_vec_prod_loop_ret (l : list CLK) (row1 row2 : CLK) :
  forall res,
    (forall c, In c l ->
       (length c <= length row1)%nat /\ (length c <= length row2)%nat /\
       fits64 c row1 0 = true /\ fits64 c row2 0 = true) ->
    mat_vec_prod_loop l row1 row2 res =
      Ret (res ++ flat_map (fun c => [dot c row1; dot c row2]) l).
Proof.
  induction l as [|c l IH]; intros res H.
  - simpl. now rewrite app_nil_r.
  - destruct (H c (or_introl eq_refl)) as (L1 & L2 & F1 & F2).
    simpl. rewrite !inner_product_fits by assumption. simpl.
    rewrite IH by (intros c' Hc'; apply H; now right).
    f_equal. now rewrite <- !app_assoc.
Qed.

Lemma mat_vec_prod_loop_in_bounds (l : list CLK) (row1 row2 : CLK) :
  forall res,
    (forall c, In c l ->
       (length c <= length row1)%nat /\ (length c <= length row2)%nat) ->
    mat_vec_prod_loop l row1 row2 res <> Undef OutOfBounds.
Proof.
  induction l as [|c l IH]; intros res H.
  - discriminate.
  - destruct (H c (or_introl eq_refl)) as (L1 & L2).
    simpl.
    destruct (inner_product c row1 0) as [a|u] eqn:E1; simpl.
    + destruct (inner_product c row2 0) as [b|u] eqn:E2; simpl.
      * apply IH. intros c' Hc'. apply H. now right.
      * intros Hu. apply (inner_product_in_bounds c row2 0 L2). congruence.
    + intros Hu. apply (inner_product_in_bounds c row1 0 L1). congruence.
Qed.

Lemma flat_map_pairs_length {A : Type} (f g : A -> Z) (l : list A) :
  length (flat_map (fun c => [f c; g c]) l) = (2 * length l)%nat.
Proof. induction l as [|c l IH]; simpl; [reflexivity | rewrite IH; lia]. Qed.

Lemma flat_map_pairs_nth {A : Type} (f g : A -> Z) (d : A) (l : list A) :
  forall i, (i < length l)%nat ->
    nth (2 * i) (flat_map (fun c => [f c; g c]) l) 0 = f (nth i l d) /\
    nth (2 * i + 1) (flat_map (fun c => [f c; g c]) l) 0 = g (nth i l d).
Proof.
  induction l as [|c l IH]; intros i Hi; [simpl in Hi; lia|].
  destruct i as [|i].
  - simpl. auto.
  - replace (2 * S i)%nat with (S (S (2 * i))) by lia.
    replace (S (S (2 * i)) + 1)%nat with (S (S (2 * i + 1))) by lia.
    simpl in Hi. simpl flat_map. simpl app. simpl nth at 1 3.
    apply IH. lia.
Qed.

Lemma index_nth {A : Type} (d : A) (v : list A) (i : nat) :
  (i < length v)%nat -> index v i = Ret (nth i v d).
Proof.
  intros Hi. unfold index.
  rewrite (nth_error_nth' v d Hi). reflexivity.
Qed.

Lemma index_out {A : Type} (v : list A) (i : nat) :
  (length v <= i)%nat -> index v i = Undef OutOfBounds.
Proof.
  intros Hi. unfold index.
  destruct (nth_error v i) eqn:E; [|reflexivity].
  assert (nth_error v i <> None) as Hn by congruence.
  apply nth_error_Some in Hn. lia.
Qed.

(** The CLKs of a list all have the length of the first one. *)
Lemma equal_length_le (clks : list CLK) (j : nat) (c : CLK) :
  (forall c, In c clks -> length c = length (nth 0 clks [])) ->
  (j < length clks)%nat -> In c clks ->
  (length c <= length (nth j clks []))%nat.
Proof.
  intros Heq Hj Hc.
  rewrite (Heq c Hc), (Heq (nth j clks []) (nth_In clks [] Hj)). lia.
Qed.

Lemma mat_vec_prod_ret (clks : list CLK) :
  (2 <= length clks)%nat ->
  (forall c, In c clks -> length c = length (nth 0 clks [])) ->
  (forall c, In c clks ->
     fits64 c (nth 0 clks []) 0 = true /\ fits64 c (nth 1 clks []) 0 = true) ->
  mat_vec_prod clks =
    Ret (flat_map (fun c => [dot c (nth 0 clks []); dot c (nth 1 clks [])]) clks).
Proof.
  intros Hn Heq Hfit. unfold mat_vec_prod.
  rewrite (index_nth ([] : CLK) clks 0), (index_nth ([] : CLK) clks 1) by lia.
  simpl. rewrite mat_vec_prod_loop_ret; [reflexivity|].
  intros c Hc. destruct (Hfit c Hc) as [F0 F1].
  repeat split; try assumption; apply equal_length_le; auto; lia.
Qed.

(** C4, as amended.  For every list of at least two CLKs of equal length
    whose element products and running sums against the first two CLKs fit
    in a signed 64-bit integer, [mat_vec_prod] returns a vector of length
    [2n] ([n] the number of CLKs) whose element [2i] is the inner product of
    CLK [i] with CLK 0 and whose element [2i+1] is the inner product of CLK
    [i] with CLK 1: a two-column probe. *)
Theorem mat_vec_prod_two_column_probe (clks : list CLK) :
  (2 <= length clks)%nat ->
  (forall c, In c clks -> length c = length (nth 0 clks [])) ->
  (forall c, In c clks ->
     fits64 c (nth 0 clks []) 0 = true /\ fits64 c (nth 1 clks []) 0 = true) ->
  exists res,
    mat_vec_prod clks = Ret res /\
    length res = (2 * length clks)%nat /\
    forall i, (i < length clks)%nat ->
      nth (2 * i) res 0 = dot (nth i clks []) (nth 0 clks []) /\
      nth (2 * i + 1) res 0 = dot (nth i clks []) (nth 1 clks []).
Proof.
  intros Hn Heq Hfit.
  exists (flat_map (fun c => [dot c (nth 0 clks []); dot c (nth 1 clks [])]) clks).
  split; [|split].
  - now apply mat_vec_prod_ret.
  - apply flat_map_pairs_length.
  - intros i Hi.
    exact (flat_map_pairs_nth (fun c => dot c (nth 0 clks []))
             (fun c => dot c (nth 1 clks [])) [] clks i Hi).
Qed.

Lemma mat_vec_prod_two_column_probe_witness :
  exists res,
    mat_vec_prod [[1; 0; 1]; [1; 1; 0]; [0; 1; 1]] = Ret res /\
    length res = 6%nat /\
    forall i, (i < 3)%nat ->
      nth (2 * i) res 0 = dot (nth i [[1; 0; 1]; [1; 1; 0]; [0; 1; 1]] []) [1; 0; 1] /\
      nth (2 * i + 1) res 0 = dot (nth i [[1; 0; 1]; [1; 1; 0]; [0; 1; 1]] []) [1; 1; 0].
Proof.
  apply (mat_vec_prod_two_column_probe [[1; 0; 1]; [1; 1; 0]; [0; 1; 1]]).
  - simpl. lia.
  - intros c [<-|[<-|[<-|[]]]]; reflexivity.
  - intros c [<-|[<-|[<-|[]]]]; split; reflexivity.
Defined.

(** C4 as stated fails where the arithmetic leaves [int64_t]: for the two
    one-element CLKs [2^32] the inner product is [2^64], and the
    multiplication inside [std::inner_product] overflows. *)
Lemma mat_vec_prod_overflow :
  (2 <= length [[2 ^ 32]; [2 ^ 32]])%nat /\
  (forall c, In c [[2 ^ 32]; [2 ^ 32]] ->
     length c = length (nth 0 [[2 ^ 32]; [2 ^ 32]] [])) /\
  mat_vec_prod [[2 ^ 32]; [2 ^ 32]] = Undef SignedOverflow /\
  ~ exists res,
      mat_vec_prod [[2 ^ 32]; [2 ^ 32]] = Ret res /\
      length res = (2 * length [[2 ^ 32]; [2 ^ 32]])%nat /\
      forall i, (i < length [[2 ^ 32]; [2 ^ 32]])%nat ->
        nth (2 * i) res 0 =
          dot (nth i [[2 ^ 32]; [2 ^ 32]] []) (nth 0 [[2 ^ 32]; [2 ^ 32]] []) /\
        nth (2 * i + 1) res 0 =
          dot (nth i [[2 ^ 32]; [2 ^ 32]] []) (nth 1 [[2 ^ 32]; [2 ^ 32]] []).
Proof.
  split; [simpl; lia|]. split.
  - intros c [<-|[<-|[]]]; reflexivity.
  - assert (mat_vec_prod [[2 ^ 32]; [2 ^ 32]] = Undef SignedOverflow) as E
      by (vm_compute; reflexivity).
    split; [exact E|]. intros (res & Hres & _). congruence.
Qed.

(** The condition on the arithmetic is the exact one: when [mat_vec_prod]
    returns, every product and running sum fitted. *)
Lemma mat_vec_prod_loop_fits (l : list CLK) (row1 row2 : CLK) :
  forall res out, mat_vec_prod_loop l row1 row2 res = Ret out ->
    forall c, In c l -> fits64 c row1 0 = true /\ fits64 c row2 0 = true.
Proof.
  induction l as [|c l IH]; intros res out H c' Hc'; [contradiction|].
  simpl in H.
  apply bind_ret in H as (a & Ha & H). apply bind_ret in H as (b & Hb & H).
  destruct Hc' as [<-|Hc'].
  - apply inner_product_ret in Ha, Hb. tauto.
  - eapply IH; eauto.
Qed.

(** C8.  [mat_vec_prod] indexes [clks[0]] and [clks[1]] unconditionally and
    reads, for each CLK, as many elements of those two rows as the CLK has:
    with at least two CLKs, all of equal length, no access is out of bounds;
    with fewer than two CLKs the indexing is out of bounds. *)
Theorem mat_vec_prod_accesses (clks : list CLK) :
  ((2 <= length clks)%nat ->
   (forall c, In c clks -> length c = length (nth 0 clks [])) ->
   mat_vec_prod clks <> Undef OutOfBounds) /\
  ((length clks < 2)%nat -> mat_vec_prod clks = Undef OutOfBounds).
Proof.
  split.
  - intros Hn Heq. unfold mat_vec_prod.
    rewrite (index_nth ([] : CLK) clks 0), (index_nth ([] : CLK) clks 1) by lia. simpl.
    apply mat_vec_prod_loop_in_bounds.
    intros c Hc. split; apply equal_length_le; auto; lia.
  - intros Hn. unfold mat_vec_prod.
    destruct clks as [|c0 [|c1 rest]]; simpl in *; try reflexivity. lia.
Qed.

Lemma mat_vec_prod_accesses_witness :
  mat_vec_prod [[1; 0; 1]; [1; 1; 0]; [0; 1; 1]] <> Undef OutOfBounds /\
  mat_vec_prod [[1; 0; 1]] = Undef OutOfBounds /\
  mat_vec_prod [] = Undef OutOfBounds.
Proof.
  split; [|split].
  - apply (proj1 (mat_vec_prod_accesses [[1; 0; 1]; [1; 1; 0]; [0; 1; 1]])).
    + simpl. lia.
    + intros c [<-|[<-|[<-|[]]]]; reflexivity.
  - apply (proj2 (mat_vec_prod_accesses [[1; 0; 1]])). simpl. lia.
  - apply (proj2 (mat_vec_prod_accesses [])). simpl. lia.
Defined.

(** ** [check_result] *)

Example check_result_equal :
  check_result "t" (Machine [1; 2; 3] [1; 2; 3] "" 0) =
    Ret (Machine [1; 2; 3] [1; 2; 3] "" 3).
Proof. reflexivity. Qed.

Example check_result_two_wrong :
  option_map cout
    (match check_result "t" (Machine [1; 2; 3] [1; 5; 4] "" 0) with
     | Ret m => Some m | Undef _ => None end) =
  Some ("t: 2/3 failures (first: 1)" ++ endl)%string.
Proof. reflexivity. Qed.

Example check_result_sizes :
  check_result "t" (Machine [1; 2; 3] [1; 2] "" 0) =
    Ret (Machine [1; 2; 3] [1; 2]
           ("t: dimension error: expected size 3, got size 2" ++ endl)%string 0).
Proof. reflexivity. Qed.

Lemma string_length_append (s t : string) :
  String.length (s ++ t)%string = (String.length s + String.length t)%nat.
Proof. induction s as [|c s IH]; simpl; [reflexivity | now rewrite IH]. Qed.

Lemma append_same_empty (s t : string) : (s ++ t)%string = s -> t = ""%string.
Proof.
  intros H. apply (f_equal String.length) in H.
  rewrite string_length_append in H.
  destruct t; [reflexivity | simpl in H; lia].
Qed.

Lemma dimension_error_nonempty (pre : string) (m : machine) :
  dimension_error pre m <> ""%string.
Proof.
  intros H. apply (f_equal String.length) in H.
  unfold dimension_error in H. rewrite !string_length_append in H.
  simpl in H. lia.
Qed.

Lemma failures_nonempty (pre : string) (nw fw : Z) (m : machine) :
  failures pre nw fw m <> ""%string.
Proof.
  intros H. apply (f_equal String.length) in H.
  unfold failures in H. rewrite !string_length_append in H.
  simpl in H. lia.
Qed.

Lemma differ_at_ret (i : nat) (m : machine) :
  (i < length (vec_output m))%nat -> (i < length (vec_expected m))%nat ->
  differ_at i m =
    Ret (negb (nth i (vec_output m) 0 =? nth i (vec_expected m) 0), tick m).
Proof.
  intros Ho He. unfold differ_at.
  rewrite (index_nth 0 _ _ Ho), (index_nth 0 _ _ He). reflexivity.
Qed.

Lemma only_compared_tick (k : nat) (m m' : machine) :
  only_compared k (tick m) m' -> only_compared (S k) m m'.
Proof.
  unfold only_compared. simpl. intros (E1 & E2 & E3 & E4).
  repeat split; try assumption. lia.
Qed.

(** When the loop runs to its end, the counter has not decreased, and it is
    unchanged only if every compared pair was equal. *)
Lemma check_loop_ret (n : nat) :
  forall i fw nw m fw' nw' m',
    (i + n <= length (vec_output m))%nat ->
    (i + n <= length (vec_expected m))%nat ->
    check_loop n i fw nw m = Ret (fw', nw', m') ->
    only_compared n m m' /\ nw <= nw' /\
    (nw' = nw ->
     forall j, (i <= j < i + n)%nat ->
       nth j (vec_output m) 0 = nth j (vec_expected m) 0).
Proof.
  induction n as [|n IH]; intros i fw nw m fw' nw' m' Ho He H.
  - simpl in H. inversion H. subst. unfold only_compared.
    repeat split; lia.
  - simpl in H. rewrite differ_at_ret in H by lia. simpl in H.
    destruct (nth i (vec_output m) 0 =? nth i (vec_expected m) 0) eqn:E; simpl in H.
    + apply IH in H as (Hm & Hnw & Hall); [|simpl; lia|simpl; lia].
      split; [now apply only_compared_tick|]. split; [assumption|].
      intros Hsame j Hj. destruct (Nat.eq_dec j i) as [->|Hne].
      * now apply Z.eqb_eq.
      * apply (Hall Hsame j). lia.
    + unfold incr_int in H. destruct (in_int (nw + 1)); [|discriminate].
      simpl in H.
      apply IH in H as (Hm & Hnw & Hall); [|simpl; lia|simpl; lia].
      split; [now apply only_compared_tick|]. split; [lia|].
      intros Hsame. lia.
Qed.

Lemma check_loop_match (n : nat) :
  forall i fw nw m,
    (i + n <= length (vec_output m))%nat ->
    (i + n <= length (vec_expected m))%nat ->
    (forall j, (i <= j < i + n)%nat ->
       nth j (vec_output m) 0 = nth j (vec_expected m) 0) ->
    exists m', check_loop n i fw nw m = Ret (fw, nw, m') /\ only_compared n m m'.
Proof.
  induction n as [|n IH]; intros i fw nw m Ho He Hall.
  - exists m. split; [reflexivity|]. unfold only_compared. repeat split; lia.
  - simpl. rewrite differ_at_ret by lia. simpl.
    rewrite (Hall i) by lia. rewrite Z.eqb_refl. simpl.
    destruct (IH (S i) fw nw (tick m)) as (m' & Hrun & Hm); simpl; try lia.
    + intros j Hj. apply Hall. lia.
    + exists m'. split; [assumption | now apply only_compared_tick].
Qed.

(** The counter of [check_result] cannot overflow on vectors of fewer than
    [2^31] elements: the function then returns. *)
Lemma check_loop_defined (n : nat) :
  forall i fw nw m,
    (i + n <= length (vec_output m))%nat ->
    (i + n <= length (vec_expected m))%nat ->
    0 <= nw -> nw + Z.of_nat n <= INT_MAX ->
    exists r, check_loop n i fw nw m = Ret r.
Proof.
  induction n as [|n IH]; intros i fw nw m Ho He Hnw Hmax.
  - eexists. reflexivity.
  - simpl. rewrite differ_at_ret by lia. simpl.
    destruct (nth i (vec_output m) 0 =? nth i (vec_expected m) 0); simpl.
    + apply IH; simpl; lia.
    + unfold incr_int, in_int, INT_MIN, INT_MAX in *.
      replace ((- 2 ^ 31 <=? nw + 1) && (nw + 1 <=? 2 ^ 31 - 1)) with true
        by (symmetry; apply andb_true_iff; split; apply Z.leb_le; lia).
      simpl. apply IH; simpl; lia.
Qed.

Lemma check_result_defined (pre : string) (m : machine) :
  Z.of_nat (length (vec_output m)) <= INT_MAX ->
  exists m', check_result pre m = Ret m'.
Proof.
  intros Hmax. unfold check_result.
  destruct (length (vec_output m) =? length (vec_expected m))%nat eqn:Hsz; simpl.
  - apply Nat.eqb_eq in Hsz.
    destruct (check_loop_defined (length (vec_output m)) 0 (-1) 0 m)
      as ([[fw nw] m1] & Hloop); try (simpl; lia).
    rewrite Hloop. simpl. destruct (0 <? nw); eexists; reflexivity.
  - eexists. reflexivity.
Qed.

(** On equal vectors [check_result] compares every pair and prints
    nothing. *)
Lemma check_result_silent (pre : string) (m : machine) :
  vec_output m = vec_expected m ->
  exists m', check_result pre m = Ret m' /\
    only_compared (length (vec_output m)) m m'.
Proof.
  intros Heq. unfold check_result. rewrite Heq, Nat.eqb_refl. simpl.
  destruct (check_loop_match (length (vec_expected m)) 0 (-1) 0 m)
    as (m' & Hloop & Hm); try (rewrite ?Heq; simpl; lia).
  exists m'. rewrite Hloop. simpl. auto.
Qed.

Lemma print_changes_cout (s : string) (m : machine) :
  s <> ""%string -> cout (print s m) <> cout m.
Proof. intros Hs H. simpl in H. now apply append_same_empty in H. Qed.

(** C10.  [check_result] prints nothing if and only if [output] has the
    size of [expected] and every element matches; when the sizes differ it
    reports a dimension error without comparing any element; and it never
    modifies either vector.  (It returns on all vectors of fewer than
    [2^31] elements, where its [int] counter cannot overflow.) *)
Theorem check_result_report (pre : string) (m : machine) :
  ((exists m', check_result pre m = Ret m' /\ cout m' = cout m) <->
   (length (vec_output m) = length (vec_expected m) /\
    forall i, (i < length (vec_output m))%nat ->
      nth i (vec_output m) 0 = nth i (vec_expected m) 0)) /\
  (length (vec_output m) <> length (vec_expected m) ->
   exists m', check_result pre m = Ret m' /\
     cout m' = (cout m ++ dimension_error pre m)%string /\
     compared m' = compared m) /\
  (forall m', check_result pre m = Ret m' ->
     vec_expected m' = vec_expected m /\ vec_output m' = vec_output m) /\
  (Z.of_nat (length (vec_output m)) <= INT_MAX ->
   exists m', check_result pre m = Ret m').
Proof.
  pose proof (check_result_defined pre m) as Hdef.
  unfold check_result in *.
  destruct (length (vec_output m) =? length (vec_expected m))%nat eqn:Hsz;
    simpl in *.
  - apply Nat.eqb_eq in Hsz.
    split; [split|split; [|split; [|exact Hdef]]].
    + intros (m' & Hrun & Hcout). split; [assumption|].
      apply bind_ret in Hrun as ([[fw nw] m1] & Hloop & Hrun).
      apply check_loop_ret in Hloop as (Hm & Hnw & Hall); [|simpl; lia|simpl; lia].
      destruct (0 <? nw) eqn:Hpos.
      * exfalso. inversion Hrun. subst m'.
        destruct Hm as (_ & _ & Hc & _). rewrite <- Hc in Hcout.
        now apply print_changes_cout in Hcout; [|apply failures_nonempty].
      * apply Z.ltb_ge in Hpos. intros i Hi. apply Hall; lia.
    + intros (_ & Hall).
      destruct (check_loop_match (length (vec_output m)) 0 (-1) 0 m)
        as (m' & Hloop & Hm); [simpl; lia|simpl; lia| |].
      * intros j Hj. apply Hall. lia.
      * exists m'. rewrite Hloop. simpl. split; [reflexivity|]. apply Hm.
    + intros Hne. contradiction.
    + intros m' Hrun.
      apply bind_ret in Hrun as ([[fw nw] m1] & Hloop & Hrun).
      apply check_loop_ret in Hloop as (Hm & _); [|simpl; lia|simpl; lia].
      destruct Hm as (He & Ho & _).
      destruct (0 <? nw); inversion Hrun; subst m'; simpl; auto.
  - apply Nat.eqb_neq in Hsz.
    split; [split|split; [|split; [|exact Hdef]]].
    + intros (m' & Hrun & Hcout). exfalso. inversion Hrun. subst m'.
      now apply print_changes_cout in Hcout; [|apply dimension_error_nonempty].
    + intros (Hlen & _). contradiction.
    + intros _. eexists. split; [reflexivity|]. simpl. auto.
    + intros m' Hrun. inversion Hrun. simpl. auto.
Qed.

Lemma check_result_report_witness :
  (exists m', check_result "emat  vec" (Machine [2; 1; 1] [2; 1; 1] "" 0) = Ret m' /\
              cout m' = ""%string) /\
  (exists m', check_result "emat  vec" (Machine [2; 1; 1] [2; 1] "" 0) = Ret m' /\
     cout m' = ("" ++ dimension_error "emat  vec" (Machine [2; 1; 1] [2; 1] "" 0))%string /\
     compared m' = 0%nat) /\
  (exists m', check_result "emat  vec" (Machine [2; 1; 1] [2; 5; 4] "" 0) = Ret m').
Proof.
  split; [|split].
  - apply (proj1 (check_result_report "emat  vec" (Machine [2; 1; 1] [2; 1; 1] "" 0))).
    simpl. split; [reflexivity|].
    intros [|[|[|i]]] Hi; reflexivity.
  - apply (proj1 (proj2 (check_result_report "emat  vec" (Machine [2; 1; 1] [2; 1] "" 0)))).
    simpl. lia.
  - apply (proj2 (proj2 (proj2
             (check_result_report "emat  vec" (Machine [2; 1; 1] [2; 5; 4] "" 0))))).
    vm_compute. discriminate.
Defined.

(** ** The matrices of [main] *)

Lemma nclks_value : nclks = 2048%nat.
Proof. reflexivity. Qed.

Lemma Linmat_length : length Linmat = (nclks * clksz)%nat.
Proof. unfold Linmat. now rewrite length_map, length_seq. Qed.

Lemma Linmat_nth (i : nat) :
  (i < nclks * clksz)%nat -> nth i Linmat 0 = Linmat_at i.
Proof.
  intros Hi. unfold Linmat.
  rewrite (nth_indep _ 0 (Linmat_at 0)) by now rewrite length_map, length_seq.
  rewrite map_nth, seq_nth by assumption. reflexivity.
Qed.

Lemma land_1_bit (x : Z) : bit (Z.land x 1).
Proof.
  unfold bit. replace (Z.land x 1) with (x mod 2).
  - assert (0 <= x mod 2 < 2) by (apply Z.mod_pos_bound; lia). lia.
  - symmetry. exact (Z.land_ones x 1 ltac:(lia)).
Qed.

Lemma Linmat_at_bit (i : nat) : bit (Linmat_at i).
Proof. apply land_1_bit. Qed.

(** No [size_t] product of the loop wraps. *)
Lemma Linmat_at_exact (i : nat) :
  (i < nclks * clksz)%nat ->
  Linmat_at i = Z.land ((Z.of_nat i * 17) mod 31) 1.
Proof.
  intros Hi. unfold Linmat_at, size_mul, SIZE_MOD.
  rewrite (Z.mod_small (Z.of_nat i * 17)); [reflexivity|].
  rewrite nclks_value in Hi. unfold clksz in Hi. lia.
Qed.

Global Opaque Linmat.

Lemma slice_clks_length (n : nat) :
  forall iter buf, length (slice_clks n iter buf) = n.
Proof. induction n as [|n IH]; intros; simpl; [reflexivity | now rewrite IH]. Qed.

Lemma slice_clks_nth (n : nat) :
  forall iter buf i, (i < n)%nat ->
    nth i (slice_clks n iter buf) [] =
      firstn clksz (skipn (iter + i * clksz) buf).
Proof.
  induction n as [|n IH]; intros iter buf i Hi; [lia|].
  destruct i as [|i]; simpl slice_clks; simpl nth.
  - f_equal. f_equal. lia.
  - rewrite IH by lia. f_equal. f_equal. lia.
Qed.

Lemma clks_length : length clks = nclks.
Proof. apply slice_clks_length. Qed.

(** Row [i] of the left matrix, as [main] slices it out of the buffer *)
Lemma clks_row_length (i : nat) :
  (i < nclks)%nat -> length (nth i clks []) = clksz.
Proof.
  intros Hi. unfold clks. rewrite slice_clks_nth by assumption.
  rewrite length_firstn, length_skipn, Linmat_length.
  rewrite nclks_value in *. unfold clksz. lia.
Qed.

Lemma clks_row_nth (i j : nat) :
  (i < nclks)%nat -> (j < clksz)%nat ->
  nth j (nth i clks []) 0 = row_major Linmat clksz i j.
Proof.
  intros Hi Hj. unfold clks, row_major. rewrite slice_clks_nth by assumption.
  rewrite nth_firstn.
  destruct (j <? clksz)%nat eqn:E; [|apply Nat.ltb_ge in E; lia].
  rewrite nth_skipn. reflexivity.
Qed.

Lemma row_major_Linmat_bit (i j : nat) :
  (i < nclks)%nat -> (j < clksz)%nat -> bit (row_major Linmat clksz i j).
Proof.
  intros Hi Hj. unfold row_major. rewrite Linmat_nth.
  - apply Linmat_at_bit.
  - rewrite nclks_value in *. unfold clksz in *. lia.
Qed.

Lemma clks_row_bits (i : nat) :
  (i < nclks)%nat -> Forall bit (nth i clks []).
Proof.
  intros Hi. apply List.Forall_forall. intros x Hx.
  apply (In_nth _ _ 0) in Hx as (j & Hj & <-).
  rewrite clks_row_length in Hj by assumption.
  rewrite clks_row_nth by assumption. now apply row_major_Linmat_bit.
Qed.

(** C3, refuted as stated.  Read as a row-major 512 x 2 matrix, the buffer
    handed to the right packer does not have row 0 of the left matrix as its
    column 0: entry (2, 0) of that reading is element 4 of the buffer, which
    is 0, while element 2 of row 0 is 1. *)
Lemma probe_not_row_major :
  row_major Rinmat 2 2 0 = 0 /\
  row_major Linmat clksz 0 2 = 1 /\
  ~ (forall j, (j < clksz)%nat ->
       row_major Rinmat 2 j 0 = row_major Linmat clksz 0 j /\
       row_major Rinmat 2 j 1 = row_major Linmat clksz 1 j).
Proof.
  assert (row_major Rinmat 2 2 0 = 0) as E0.
  { unfold row_major, Rinmat. simpl Nat.add.
    rewrite Linmat_nth by (rewrite nclks_value; unfold clksz; lia).
    reflexivity. }
  assert (row_major Linmat clksz 0 2 = 1) as E1.
  { unfold row_major. simpl Nat.add.
    rewrite Linmat_nth by (rewrite nclks_value; unfold clksz; lia).
    reflexivity. }
  repeat split; try assumption.
  intros H. destruct (H 2%nat) as [H0 _]; [unfold clksz; lia|].
  rewrite E0, E1 in H0. discriminate.
Qed.

(** C3, as amended.  The buffer of the left operand is row-major, and the
    buffer handed to the right packer holds the probe column after column:
    read as a column-major 512 x 2 matrix, the first 1024 elements of the
    driver's buffer have row 0 of the left matrix as column 0 and row 1 as
    column 1. *)
Theorem probe_columns_are_first_rows (j c : nat) :
  (j < clksz)%nat -> (c < 2)%nat ->
  (c * clksz + j < 2 * clksz)%nat /\
  column_major Rinmat clksz j c = row_major Linmat clksz c j /\
  column_major Rinmat clksz j c = nth j (nth c clks []) 0.
Proof.
  intros Hj Hc. split; [nia|]. split.
  - reflexivity.
  - rewrite clks_row_nth; [reflexivity | rewrite nclks_value; lia | assumption].
Qed.

Lemma probe_columns_are_first_rows_witness :
  (1 * clksz + 7 < 2 * clksz)%nat /\
  column_major Rinmat clksz 7 1 = row_major Linmat clksz 1 7 /\
  column_major Rinmat clksz 7 1 = nth 7 (nth 1 clks []) 0.
Proof.
  apply (probe_columns_are_first_rows 7 1); unfold clksz; lia.
Defined.

Lemma dot_bits (a : list Z) :
  forall b, Forall bit a -> Forall bit b ->
    0 <= dot a b <= Z.of_nat (length a).
Proof.
  induction a as [|x a IH]; intros b Ha Hb; [simpl; lia|].
  destruct b as [|y b]; [simpl; lia|].
  inversion Ha as [|? ? Hx Ha']. inversion Hb as [|? ? Hy Hb']. subst.
  specialize (IH b Ha' Hb').
  simpl dot. simpl length. unfold bit in Hx, Hy.
  assert (0 <= x * y <= 1) by (destruct Hx, Hy; subst; lia). lia.
Qed.

Lemma Linmat_bits : Forall bit Linmat.
Proof.
  apply List.Forall_forall. intros x Hx.
  apply (In_nth _ _ 0) in Hx as (i & Hi & <-).
  rewrite Linmat_length in Hi. rewrite Linmat_nth by assumption.
  apply Linmat_at_bit.
Qed.

(** C9.  Every element of the left matrix that [main] builds is 0 or 1, so
    the inner product of any two of its rows lies between 0 and 512, which
    is below half the plaintext modulus 40961. *)
Theorem driver_magnitudes :
  Forall bit Linmat /\
  (forall x, In x Linmat -> 2 * Z.abs x < plain_mod) /\
  forall a b, (a < nclks)%nat -> (b < nclks)%nat ->
    0 <= dot (nth a clks []) (nth b clks []) <= 512 /\
    2 * Z.abs (dot (nth a clks []) (nth b clks [])) < plain_mod.
Proof.
  split; [apply Linmat_bits|]. split.
  - intros x Hx.
    pose proof (proj1 (List.Forall_forall bit Linmat) Linmat_bits x Hx) as Hb.
    unfold bit in Hb. unfold plain_mod. lia.
  - intros a b Ha Hb.
    pose proof (dot_bits (nth a clks []) (nth b clks [])
                  (clks_row_bits a Ha) (clks_row_bits b Hb)) as H.
    rewrite clks_row_length in H by assumption.
    unfold clksz in H. unfold plain_mod. lia.
Qed.

Lemma driver_magnitudes_witness :
  0 <= dot (nth 5 clks []) (nth 1 clks []) <= 512 /\
  2 * Z.abs (dot (nth 5 clks []) (nth 1 clks [])) < plain_mod.
Proof.
  apply (proj2 (proj2 driver_magnitudes) 5%nat 1%nat);
    rewrite nclks_value; lia.
Defined.

(** ** The engine: slot arithmetic *)

Lemma tabulate_length {A : Type} (n : nat) (f : nat -> A) :
  length (tabulate n f) = n.
Proof. unfold tabulate. now rewrite length_map, length_seq. Qed.

Lemma tabulate_nth {A : Type} (n : nat) (f : nat -> A) (d : A) (i : nat) :
  (i < n)%nat -> nth i (tabulate n f) d = f i.
Proof.
  intros Hi. unfold tabulate.
  rewrite (nth_indep _ d (f 0%nat)) by now rewrite length_map, length_seq.
  rewrite map_nth, seq_nth by assumption. reflexivity.
Qed.

Lemma tabulate_ext {A : Type} (n : nat) (f g : nat -> A) :
  (forall i, (i < n)%nat -> f i = g i) -> tabulate n f = tabulate n g.
Proof.
  intros H. unfold tabulate. apply map_ext_in.
  intros i Hi. apply in_seq in Hi. apply H. lia.
Qed.

Lemma tabulate_nth_id (l : list Z) : tabulate (length l) (fun t => nth t l 0) = l.
Proof.
  apply (nth_ext _ _ 0 0).
  - apply tabulate_length.
  - intros t Ht. rewrite tabulate_length in Ht. now rewrite tabulate_nth.
Qed.

Lemma map_tabulate {A B : Type} (g : A -> B) (n : nat) (f : nat -> A) :
  map g (tabulate n f) = tabulate n (fun i => g (f i)).
Proof. unfold tabulate. now rewrite map_map. Qed.

Lemma ct_mul_length (p : Z) (a b : Ciphertext) :
  length (ct_mul p a b) = Nat.min (length a) (length b).
Proof. unfold ct_mul. now rewrite length_map, length_combine. Qed.

Lemma ct_add_length (p : Z) (a b : Ciphertext) :
  length (ct_add p a b) = Nat.min (length a) (length b).
Proof. unfold ct_add. now rewrite length_map, length_combine. Qed.

Lemma map_combine_nth (f : Z * Z -> Z) (a b : list Z) (s : nat) :
  (s < length a)%nat -> (s < length b)%nat ->
  nth s (map f (combine a b)) 0 = f (nth s a 0, nth s b 0).
Proof.
  revert b s. induction a as [|x a IH]; intros b s Ha Hb; [simpl in Ha; lia|].
  destruct b as [|y b]; [simpl in Hb; lia|].
  destruct s as [|s]; simpl; [reflexivity|].
  apply IH; simpl in *; lia.
Qed.

Lemma ct_mul_nth (p : Z) (a b : Ciphertext) (s : nat) :
  (s < length a)%nat -> (s < length b)%nat ->
  nth s (ct_mul p a b) 0 = (nth s a 0 * nth s b 0) mod p.
Proof. intros Ha Hb. unfold ct_mul. now rewrite map_combine_nth. Qed.

Lemma ct_add_nth (p : Z) (a b : Ciphertext) (s : nat) :
  (s < length a)%nat -> (s < length b)%nat ->
  nth s (ct_add p a b) 0 = (nth s a 0 + nth s b 0) mod p.
Proof. intros Ha Hb. unfold ct_add. now rewrite map_combine_nth. Qed.

Lemma rotate_length (k : nat) (a : Ciphertext) :
  length (rotate k a) = length a.
Proof.
  unfold rotate. rewrite length_app, length_skipn, length_firstn. lia.
Qed.

Lemma rotate_nth (k : nat) (a : Ciphertext) (s : nat) :
  (s + k < length a)%nat -> nth s (rotate k a) 0 = nth (s + k) a 0.
Proof.
  intros Hs. unfold rotate.
  rewrite app_nth1 by (rewrite length_skipn; lia).
  rewrite nth_skipn. f_equal. lia.
Qed.

Example rotate_by_one : rotate 1 [10; 20; 30; 40] = [20; 30; 40; 10].
Proof. reflexivity. Qed.

Example rotate_and_add_four :
  nth 0 (rotate_and_add 97 2 [1; 2; 3; 4; 50; 60; 70; 80]) 0 = 10.
Proof. reflexivity. Qed.

(** Sums *)
Lemma sum_upto_ext (n : nat) (f g : nat -> Z) :
  (forall j, (j < n)%nat -> f j = g j) -> sum_upto n f = sum_upto n g.
Proof.
  induction n as [|n IH]; intros H; simpl; [reflexivity|].
  rewrite IH, (H n) by (intros; try apply H; lia). reflexivity.
Qed.

Lemma sum_upto_mod (p : Z) (n : nat) (f g : nat -> Z) :
  (forall j, (j < n)%nat -> f j mod p = g j mod p) ->
  sum_upto n f mod p = sum_upto n g mod p.
Proof.
  induction n as [|n IH]; intros H; simpl; [reflexivity|].
  rewrite (Zplus_mod (sum_upto n f)), (Zplus_mod (sum_upto n g)).
  rewrite (H n) by lia. rewrite IH by (intros; apply H; lia). reflexivity.
Qed.

Lemma sum_upto_add (n : nat) (f g : nat -> Z) :
  sum_upto n (fun j => f j + g j) = sum_upto n f + sum_upto n g.
Proof. induction n as [|n IH]; simpl; [reflexivity | rewrite IH; lia]. Qed.

Lemma sum_upto_app (n m : nat) (f : nat -> Z) :
  sum_upto (n + m) f = sum_upto n f + sum_upto m (fun j => f (n + j)%nat).
Proof.
  induction m as [|m IH]; simpl.
  - rewrite Nat.add_0_r. lia.
  - rewrite Nat.add_succ_r. simpl. rewrite IH. lia.
Qed.

Lemma sum_upto_zero (n : nat) (f : nat -> Z) :
  (forall j, (j < n)%nat -> f j = 0) -> sum_upto n f = 0.
Proof.
  induction n as [|n IH]; intros H; simpl; [reflexivity|].
  rewrite IH, (H n) by (intros; try apply H; lia). reflexivity.
Qed.

Lemma sum_upto_padded (n w : nat) (f : nat -> Z) :
  (n <= w)%nat -> (forall j, (n <= j < w)%nat -> f j = 0) ->
  sum_upto w f = sum_upto n f.
Proof.
  intros Hle H. replace w with (n + (w - n))%nat by lia.
  rewrite sum_upto_app, (sum_upto_zero (w - n)); [lia|].
  intros j Hj. apply H. lia.
Qed.

Lemma rotate_and_add_length (p : Z) (m : nat) :
  forall a, length (rotate_and_add p m a) = length a.
Proof.
  induction m as [|m IH]; intros a; simpl; [reflexivity|].
  rewrite IH, ct_add_length, rotate_length. lia.
Qed.

(** After [m] halving steps, slot [s] holds the sum of the [2^m] slots from
    [s] on, provided they do not wrap around the end of the vector. *)
Lemma rotate_and_add_slot (p : Z) (m : nat) :
  forall a s, (s + 2 ^ m <= length a)%nat ->
    nth s (rotate_and_add p m a) 0 mod p =
    sum_upto (2 ^ m) (fun j => nth (s + j) a 0) mod p.
Proof.
  induction m as [|m IH]; intros a s Hs.
  - simpl. now rewrite Nat.add_0_r.
  - simpl rotate_and_add.
    assert (2 ^ S m = 2 ^ m + 2 ^ m)%nat as Hpow by (simpl; lia).
    rewrite IH by (rewrite ct_add_length, rotate_length; lia).
    rewrite Hpow, sum_upto_app, <- sum_upto_add.
    apply sum_upto_mod. intros j Hj.
    rewrite ct_add_nth by (try rewrite rotate_length; lia).
    rewrite rotate_nth by lia.
    rewrite Zmod_mod.
    replace (s + (2 ^ m + j))%nat with (s + j + 2 ^ m)%nat by lia.
    reflexivity.
Qed.

Lemma ct_mul_reduced (p : Z) (a b : Ciphertext) : reduced p (ct_mul p a b).
Proof.
  intros s Hs. rewrite ct_mul_length in Hs.
  rewrite ct_mul_nth by lia. apply Zmod_mod.
Qed.

Lemma ct_add_reduced (p : Z) (a b : Ciphertext) : reduced p (ct_add p a b).
Proof.
  intros s Hs. rewrite ct_add_length in Hs.
  rewrite ct_add_nth by lia. apply Zmod_mod.
Qed.

Lemma rotate_and_add_reduced (p : Z) (m : nat) :
  forall a, reduced p a -> reduced p (rotate_and_add p m a).
Proof.
  induction m as [|m IH]; intros a Ha; [exact Ha|].
  simpl. apply IH, ct_add_reduced.
Qed.

(** ** The engine: parameters *)

Lemma is_pow2_pos_sound (q : positive) :
  is_pow2_pos q = true -> exists k : nat, Pos.to_nat q = (2 ^ k)%nat.
Proof.
  induction q as [q IH|q IH|]; simpl; intros H.
  - discriminate.
  - destruct (IH H) as (k & Hk). exists (S k).
    rewrite Pos2Nat.inj_xO, Hk. simpl. lia.
  - exists 0%nat. reflexivity.
Qed.

Lemma is_pow2_pos_complete (k : nat) :
  forall q, Pos.to_nat q = (2 ^ k)%nat -> is_pow2_pos q = true.
Proof.
  induction k as [|k IH]; intros q Hq.
  - simpl in Hq. replace q with 1%positive by lia. reflexivity.
  - destruct q as [q|q|].
    + rewrite Pos2Nat.inj_xI in Hq. simpl in Hq. lia.
    + simpl. apply IH. rewrite Pos2Nat.inj_xO in Hq. simpl in Hq. lia.
    + simpl in Hq. pose proof (Nat.pow_nonzero 2 k). lia.
Qed.

(** [is_pow2] decides being a power of two. *)
Lemma is_pow2_spec (n : nat) :
  is_pow2 n = true <-> exists k : nat, n = (2 ^ k)%nat.
Proof.
  unfold is_pow2. split.
  - destruct (Z.of_nat n) as [|q|q] eqn:E; try discriminate.
    intros H. destruct (is_pow2_pos_sound q H) as (k & Hk).
    exists k. lia.
  - intros (k & ->).
    assert (0 < 2 ^ k)%nat by (pose proof (Nat.pow_nonzero 2 k); lia).
    destruct (Z.of_nat (2 ^ k)) as [|q|q] eqn:E; try lia.
    apply (is_pow2_pos_complete k). lia.
Qed.

Lemma no_divisor_spec (p : Z) (fuel : nat) :
  forall d, no_divisor fuel d p = true <->
    forall n, d <= n < d + Z.of_nat fuel -> p mod n <> 0.
Proof.
  induction fuel as [|fuel IH]; intros d.
  - simpl. split; [lia | reflexivity].
  - simpl no_divisor. rewrite andb_true_iff, negb_true_iff, Z.eqb_neq, IH.
    split.
    + intros (Hd & H) n Hn. destruct (Z.eq_dec n d) as [->|Hne]; [assumption|].
      apply H. lia.
    + intros H. split; [apply H; lia|]. intros n Hn. apply H. lia.
Qed.

(** [is_prime] decides primality. *)
Lemma is_prime_spec (p : Z) : is_prime p = true <-> Z.prime p.
Proof.
  unfold is_prime, Z.prime.
  rewrite andb_true_iff, Z.ltb_lt, no_divisor_spec.
  split; intros (Hp & H); (split; [assumption|]).
  - intros n Hn Hdiv. apply (H n); [lia|].
    apply Z.mod_divide; [lia | assumption].
  - intros n Hn Hmod. apply (H n); [lia|].
    apply Z.mod_divide; [lia | assumption].
Qed.

Example plain_mod_batching : batching_prime poldeg plain_mod = true.
Proof. vm_compute. reflexivity. Qed.

Lemma create_context_ok {Options : Type} (sup : nat -> bool)
    (bud : nat -> Z -> option Options -> bool)
    (n : nat) (p : Z) (opts : option Options) (ctx : Context) :
  create_context sup bud n p opts = Ok ctx <->
  is_pow2 n = true /\ sup n = true /\ batching_prime n p = true /\
  bud n p opts = true /\
  ctx = {| ring_dimension := n; plaintext_modulus := p |}.
Proof.
  unfold create_context.
  destruct (is_pow2 n), (sup n), (batching_prime n p), (bud n p opts); simpl;
    split; try discriminate; try (intros (? & ? & ? & ? & ?); discriminate).
  - intros H. inversion H. auto.
  - intros (_ & _ & _ & _ & ->). reflexivity.
Qed.

Lemma batching_prime_pos (n : nat) (p : Z) :
  batching_prime n p = true -> 1 < p.
Proof.
  unfold batching_prime. rewrite andb_true_iff. intros (H & _).
  apply is_prime_spec in H. apply H.
Qed.

(** The rotate-and-add tree of a row that fits stays inside the slot
    vector, and covers the row. *)
Lemma tree_covers (cols : nat) : (cols <= 2 ^ tree_depth cols)%nat.
Proof.
  unfold tree_depth. destruct (Nat.le_gt_cases cols 1) as [H|H].
  - pose proof (Nat.pow_nonzero 2 (Nat.log2_up cols)). lia.
  - apply Nat.log2_up_spec. lia.
Qed.

Lemma tree_fits (n cols : nat) :
  is_pow2 n = true -> (cols <= n)%nat -> (2 ^ tree_depth cols <= n)%nat.
Proof.
  intros Hn Hc. apply is_pow2_spec in Hn as (k & ->). unfold tree_depth.
  apply Nat.log2_up_le_mono in Hc. rewrite Nat.log2_up_pow2 in Hc by lia.
  apply Nat.pow_le_mono_r; lia.
Qed.

(** Centring *)
Lemma centre_congr (p v w : Z) : v mod p = w mod p -> centre p v = centre p w.
Proof. unfold centre. now intros ->. Qed.

Lemma centre_small (p v : Z) : 2 * Z.abs v < p -> centre p v = v.
Proof.
  intros H. unfold centre.
  destruct (Z.le_gt_cases 0 v) as [Hv|Hv].
  - rewrite Z.mod_small by lia.
    destruct (p <? 2 * v) eqn:E; [apply Z.ltb_lt in E; lia | reflexivity].
  - replace (v mod p) with (v + p)
      by (apply (Z.mod_unique v p (-1)); lia).
    destruct (p <? 2 * (v + p)) eqn:E; [lia | apply Z.ltb_ge in E; lia].
Qed.

(** ** The engine: packing, multiplication, decoding *)

Lemma pack_row_length (ctx : Context) (buf : list Z) (cols i : nat) :
  length (pack_row ctx buf cols i) = ring_dimension ctx.
Proof. apply tabulate_length. Qed.

Lemma pack_column_length (ctx : Context) (buf : list Z) (rows c : nat) :
  length (pack_column ctx buf rows c) = ring_dimension ctx.
Proof. apply tabulate_length. Qed.

Create Rewrite HintDb slots.
#[local] Hint Rewrite @tabulate_length ct_mul_length ct_add_length
  rotate_length rotate_and_add_length pack_row_length pack_column_length
  : slots.

(** Closes the side conditions on slot positions. *)
Ltac slots := autorewrite with slots; lia.

Lemma flat_index (rows k t : nat) :
  (t < rows * k)%nat -> (t / k < rows)%nat /\ (t mod k < k)%nat.
Proof.
  intros Ht. assert (k <> 0)%nat by lia. split.
  - apply Nat.Div0.div_lt_upper_bound. lia.
  - now apply Nat.mod_upper_bound.
Qed.

Lemma index_flat (k i c : nat) :
  (c < k)%nat ->
  ((i * k + c) / k = i)%nat /\ ((i * k + c) mod k = c)%nat.
Proof.
  intros Hc. split.
  - symmetry. apply (Nat.div_unique _ _ _ c); lia.
  - symmetry. apply (Nat.mod_unique _ _ i); lia.
Qed.

Section Pipeline.

Variable ctx : Context.
Variables L R : list Z.
Variable cols : nat.

Local Abbreviation p := (plaintext_modulus ctx).

Hypothesis Hpow : is_pow2 (ring_dimension ctx) = true.
Hypothesis Hcols : (cols <= ring_dimension ctx)%nat.

Lemma pack_row_nth (buf : list Z) (i s : nat) :
  (s < ring_dimension ctx)%nat ->
  nth s (pack_row ctx buf cols i) 0 =
    if (s <? cols)%nat then row_major buf cols i s mod p else 0.
Proof. intros Hs. unfold pack_row. now rewrite tabulate_nth. Qed.

Lemma pack_column_nth (buf : list Z) (c s : nat) :
  (s < ring_dimension ctx)%nat ->
  nth s (pack_column ctx buf cols c) 0 =
    if (s <? cols)%nat then column_major buf cols s c mod p else 0.
Proof. intros Hs. unfold pack_column. now rewrite tabulate_nth. Qed.

(** The slot-wise product of a packed row and a packed column holds the
    products of their entries, and zeros beyond the row. *)
Lemma product_nth (i c j : nat) :
  (j < ring_dimension ctx)%nat ->
  nth j (ct_mul p (pack_row ctx L cols i) (pack_column ctx R cols c)) 0 mod p =
  (if (j <? cols)%nat
   then row_major L cols i j * column_major R cols j c
   else 0) mod p.
Proof.
  intros Hj. rewrite ct_mul_nth by slots.
  rewrite pack_row_nth, pack_column_nth by assumption.
  destruct (j <? cols)%nat.
  - rewrite Zmod_mod. symmetry. apply Zmult_mod.
  - rewrite Z.mul_0_l. now rewrite Zmod_mod.
Qed.

(** Slot 0 of a reduced product ciphertext is congruent to the inner
    product of the row and the column it was made from. *)
Lemma product_slot (i c : nat) :
  nth 0 (rotate_and_add p (tree_depth cols)
           (ct_mul p (pack_row ctx L cols i) (pack_column ctx R cols c))) 0
    mod p
  = entry L R cols i c mod p.
Proof.
  pose proof (tree_fits _ _ Hpow Hcols) as Hfit.
  pose proof (tree_covers cols) as Hcov.
  rewrite rotate_and_add_slot by slots.
  rewrite (sum_upto_mod p _ _
             (fun j => if (j <? cols)%nat
                       then row_major L cols i j * column_major R cols j c
                       else 0))
    by (intros j Hj; apply product_nth; simpl; lia).
  f_equal. unfold entry.
  rewrite (sum_upto_padded cols (2 ^ tree_depth cols)).
  - apply sum_upto_ext. intros j Hj.
    apply Nat.ltb_lt in Hj. now rewrite Hj.
  - assumption.
  - intros j Hj. destruct (j <? cols)%nat eqn:E; [|reflexivity].
    apply Nat.ltb_lt in E. lia.
Qed.

(** The invariant of the multiplier: slot 0 of the ciphertext of row [i]
    and column [c] holds exactly the inner product modulo the plaintext
    modulus. *)
Lemma product_slot_exact (i c : nat) :
  nth 0 (rotate_and_add p (tree_depth cols)
           (ct_mul p (pack_row ctx L cols i) (pack_column ctx R cols c))) 0
  = entry L R cols i c mod p.
Proof.
  rewrite <- product_slot. symmetry.
  apply rotate_and_add_reduced; [apply ct_mul_reduced|].
  pose proof (Nat.pow_nonzero 2 (tree_depth cols)).
  pose proof (tree_fits _ _ Hpow Hcols). slots.
Qed.

Lemma multiply_invariant (rows k : nat) (left right prod : EncryptedMatrix) :
  encrypt_left ctx L rows cols = Ok left ->
  encrypt_right ctx R cols k = Ok right ->
  multiply ctx left right = Ok prod ->
  shape prod = (rows, k) /\ packing_kind prod = Product /\
  forall i c, (i < rows)%nat -> (c < k)%nat ->
    slot_of prod i c = entry L R cols i c mod p.
Proof.
  unfold encrypt_left, encrypt_right.
  apply Nat.leb_le in Hcols as Hc'. rewrite Hc'.
  intros Hl Hr. inversion Hl. inversion Hr. subst left right. clear Hl Hr.
  unfold multiply. simpl. rewrite Nat.eqb_refl.
  intros Hp. inversion Hp. subst prod. clear Hp.
  repeat split. intros i c Hi Hk. unfold slot_of. simpl.
  destruct (index_flat rows c i Hi) as (Ed & Em).
  rewrite tabulate_nth by nia.
  rewrite Em, Ed, !tabulate_nth by assumption.
  apply product_slot_exact.
Qed.

(** The encrypted pipeline computes the centred residues of the plaintext
    product. *)
Lemma pipeline_residues (rows k : nat) :
  pipeline ctx L R rows cols k = Ok (map (centre p) (mat_mul L R rows cols k)).
Proof.
  unfold pipeline, encrypt_left, encrypt_right.
  apply Nat.leb_le in Hcols as Hc'. rewrite Hc'. simpl bind_result.
  unfold multiply. simpl. rewrite Nat.eqb_refl. simpl.
  unfold decrypt. simpl. rewrite !Nat.eqb_refl. simpl.
  f_equal. unfold mat_mul. rewrite map_tabulate.
  apply tabulate_ext. intros t Ht.
  destruct (flat_index rows k t Ht) as (Hi & Hk).
  apply centre_congr. unfold slot_of. simpl.
  destruct (index_flat rows (t mod k) (t / k) Hi) as (Ed & Em).
  rewrite tabulate_nth by nia.
  rewrite Em, Ed, !tabulate_nth by assumption.
  apply product_slot.
Qed.

(** When every inner product is below half the plaintext modulus in
    absolute value, the pipeline computes the plaintext product. *)
Lemma pipeline_exact (rows k : nat) :
  (forall i c, (i < rows)%nat -> (c < k)%nat ->
     2 * Z.abs (entry L R cols i c) < p) ->
  pipeline ctx L R rows cols k = Ok (mat_mul L R rows cols k).
Proof.
  intros Hsmall. rewrite pipeline_residues. f_equal.
  unfold mat_mul. rewrite map_tabulate. apply tabulate_ext.
  intros t Ht. destruct (flat_index rows k t Ht) as (Hi & Hk).
  apply centre_small. now apply Hsmall.
Qed.

(** A single matrix comes back from the left packer and the decoder as its
    centred residues. *)
Lemma round_trip_residues (rows : nat) :
  length L = (rows * cols)%nat ->
  round_trip ctx L rows cols = Ok (map (centre p) L).
Proof.
  intros Hlen. unfold round_trip, encrypt_left.
  apply Nat.leb_le in Hcols as Hc'. rewrite Hc'. simpl bind_result.
  unfold decrypt. simpl. rewrite !Nat.eqb_refl. simpl. f_equal.
  replace (map (centre p) L)
    with (map (centre p) (tabulate (length L) (fun t => nth t L 0)))
    by now rewrite tabulate_nth_id.
  rewrite map_tabulate, Hlen.
  apply tabulate_ext. intros t Ht.
  destruct (flat_index rows cols t Ht) as (Hi & Hj).
  unfold slot_of. simpl. rewrite tabulate_nth by assumption.
  rewrite pack_row_nth by lia.
  apply Nat.ltb_lt in Hj as Hj'. rewrite Hj'.
  unfold row_major.
  replace (t / cols * cols + t mod cols)%nat with t
    by (rewrite (Nat.div_mod_eq t cols) at 1; lia).
  apply centre_congr, Zmod_mod.
Qed.

End Pipeline.

Example pipeline_two_by_two :
  pipeline {| ring_dimension := 8; plaintext_modulus := 17 |}
    [1; 2; 3; -1] [1; 1; 2; 0] 2 2 2 = Ok [3; 2; 2; 6].
Proof. reflexivity. Qed.

(** C1.  In a context that [create_context] accepted, for compatible
    matrices, a [rows x cols] left matrix and a [cols x k] right matrix
    whose rows fit the ring dimension (the precondition of the packers),
    whose exact inner products are below half the plaintext modulus in
    absolute value, decrypting the product of the two encrypted operands
    gives the integer matrix product, element for element: the plaintext
    reference [mat_mul].  (The bound on the entries themselves is not
    needed.) *)
Theorem multiplication_correct {Options : Type} (sup : nat -> bool)
    (bud : nat -> Z -> option Options -> bool) (opts : option Options)
    (n : nat) (p : Z) (ctx : Context) (L R : list Z) (rows cols k : nat) :
  create_context sup bud n p opts = Ok ctx ->
  (cols <= n)%nat ->
  (forall i c, (i < rows)%nat -> (c < k)%nat ->
     2 * Z.abs (entry L R cols i c) < p) ->
  exists out,
    pipeline ctx L R rows cols k = Ok out /\
    out = mat_mul L R rows cols k /\
    length out = (rows * k)%nat /\
    forall i c, (i < rows)%nat -> (c < k)%nat ->
      nth (i * k + c) out 0 =
        sum_upto cols
          (fun j => row_major L cols i j * column_major R cols j c).
Proof.
  intros Hctx Hc Hsmall.
  apply create_context_ok in Hctx as (Hn & _ & _ & _ & ->).
  exists (mat_mul L R rows cols k). split; [|split; [|split]].
  - now apply pipeline_exact.
  - reflexivity.
  - apply tabulate_length.
  - intros i c Hi Hk. unfold mat_mul. rewrite tabulate_nth by nia.
    destruct (index_flat k i c Hk) as (-> & ->). reflexivity.
Qed.

Lemma multiplication_correct_witness :
  exists out,
    pipeline {| ring_dimension := 4096; plaintext_modulus := 40961 |}
      [1; 2; 3; -1] [1; 1; 2; 0] 2 2 2 = Ok out /\
    out = mat_mul [1; 2; 3; -1] [1; 1; 2; 0] 2 2 2 /\
    length out = 4%nat /\
    forall i c, (i < 2)%nat -> (c < 2)%nat ->
      nth (i * 2 + c) out 0 =
        sum_upto 2
          (fun j => row_major [1; 2; 3; -1] 2 i j *
                    column_major [1; 1; 2; 0] 2 j c).
Proof.
  apply (multiplication_correct (Options := unit)
           (fun _ => true) (fun _ _ _ => true) None 4096 40961).
  - vm_compute. reflexivity.
  - lia.
  - intros [|[|i]] [|[|c]] Hi Hc; try lia; vm_compute; reflexivity.
Defined.

(** C5, refuted as stated.  With plaintext modulus 40961 the one-element
    matrix holding 40960 lies in [0, plaintext_modulus) but comes back from
    the round trip as -1: the decoder centres every residue. *)
Lemma round_trip_upper_half :
  create_context (Options := unit) (fun _ => true) (fun _ _ _ => true)
    4096 40961 None =
    Ok {| ring_dimension := 4096; plaintext_modulus := 40961 |} /\
  (forall x, In x [40960] -> 0 <= x < 40961) /\
  round_trip {| ring_dimension := 4096; plaintext_modulus := 40961 |}
    [40960] 1 1 = Ok [-1] /\
  round_trip {| ring_dimension := 4096; plaintext_modulus := 40961 |}
    [40960] 1 1 <> Ok [40960].
Proof.
  assert (round_trip {| ring_dimension := 4096; plaintext_modulus := 40961 |}
            [40960] 1 1 = Ok [-1]) as E by (vm_compute; reflexivity).
  split; [vm_compute; reflexivity|]. split.
  - intros x [<-|[]]. lia.
  - split; [exact E|]. rewrite E. discriminate.
Qed.

(** C5, as amended.  For a plaintext matrix every element of which is below
    half the plaintext modulus in absolute value, in particular for
    elements in [0, plaintext_modulus / 2), encrypting with the left
    packer and decrypting without any multiplication in between
    reproduces the matrix exactly. *)
Theorem round_trip_identity (ctx : Context) (M : list Z) (rows cols : nat) :
  (cols <= ring_dimension ctx)%nat ->
  length M = (rows * cols)%nat ->
  (forall x, In x M -> 2 * Z.abs x < plaintext_modulus ctx) ->
  round_trip ctx M rows cols = Ok M.
Proof.
  intros Hc Hlen Hsmall. rewrite round_trip_residues by assumption. f_equal.
  rewrite <- (map_id M) at 2. apply map_ext_in.
  intros x Hx. apply centre_small. now apply Hsmall.
Qed.

Lemma round_trip_identity_witness :
  round_trip {| ring_dimension := 8; plaintext_modulus := 17 |}
    [1; -2; 3; 0; 8; -8] 2 3 = Ok [1; -2; 3; 0; 8; -8].
Proof.
  apply (round_trip_identity {| ring_dimension := 8; plaintext_modulus := 17 |}).
  - simpl. lia.
  - reflexivity.
  - intros x Hx. simpl in Hx. simpl plaintext_modulus.
    repeat (destruct Hx as [<-|Hx]; [lia|]). contradiction.
Defined.

(** ** Failures *)

Lemma multiply_mismatch (ctx : Context) (l r : EncryptedMatrix) :
  snd (shape l) <> fst (shape r) -> multiply ctx l r = Err DimensionMismatch.
Proof.
  intros Hne. unfold multiply.
  destruct (packing_kind l), (packing_kind r); try reflexivity.
  apply Nat.eqb_neq in Hne. now rewrite Hne.
Qed.

(** C6.  For operands whose inner dimensions differ, the right one's row
    dimension from the left one's column dimension, [multiply] fails with
    [DimensionMismatch], and the call through the handles publishes
    nothing: the session afterwards is the session before. *)
Theorem multiply_dimension_mismatch (ctx : Context) (l r : EncryptedMatrix) :
  snd (shape l) <> fst (shape r) ->
  multiply ctx l r = Err DimensionMismatch /\
  forall (s : Session) (hl hr : nat),
    objects s !! hl = Some l ->
    objects s !! hr = Some r ->
    seclink_multiply s ctx hl hr = Some (Err DimensionMismatch, s).
Proof.
  intros Hne. pose proof (multiply_mismatch ctx l r Hne) as E.
  split; [exact E|]. intros s hl hr Hl Hr.
  unfold seclink_multiply. rewrite Hl, Hr, E. reflexivity.
Qed.

Lemma multiply_dimension_mismatch_witness :
  multiply {| ring_dimension := 4; plaintext_modulus := 17 |}
    {| shape := (2%nat, 3%nat); packing_kind := LeftRowPacked;
       ciphertexts := [[1; 2; 3; 0]; [4; 5; 6; 0]] |}
    {| shape := (2%nat, 1%nat); packing_kind := RightColumnPacked;
       ciphertexts := [[1; 1; 0; 0]] |} = Err DimensionMismatch /\
  seclink_multiply
    {| objects :=
         <[1%nat := {| shape := (2%nat, 1%nat);
                       packing_kind := RightColumnPacked;
                       ciphertexts := [[1; 1; 0; 0]] |}]>
           (<[0%nat := {| shape := (2%nat, 3%nat);
                          packing_kind := LeftRowPacked;
                          ciphertexts := [[1; 2; 3; 0]; [4; 5; 6; 0]] |}]> ∅);
       next_handle := 2 |}
    {| ring_dimension := 4; plaintext_modulus := 17 |} 0 1 =
  Some (Err DimensionMismatch,
        {| objects :=
             <[1%nat := {| shape := (2%nat, 1%nat);
                           packing_kind := RightColumnPacked;
                           ciphertexts := [[1; 1; 0; 0]] |}]>
               (<[0%nat := {| shape := (2%nat, 3%nat);
                              packing_kind := LeftRowPacked;
                              ciphertexts := [[1; 2; 3; 0]; [4; 5; 6; 0]] |}]> ∅);
           next_handle := 2 |}).
Proof.
  destruct (multiply_dimension_mismatch
              {| ring_dimension := 4; plaintext_modulus := 17 |}
              {| shape := (2%nat, 3%nat); packing_kind := LeftRowPacked;
                 ciphertexts := [[1; 2; 3; 0]; [4; 5; 6; 0]] |}
              {| shape := (2%nat, 1%nat); packing_kind := RightColumnPacked;
                 ciphertexts := [[1; 1; 0; 0]] |}) as (E & H).
  - simpl. lia.
  - split; [exact E|]. apply H; reflexivity.
Defined.

(** A released handle no longer names an object; releasing it again is
    outside the specification. *)
Lemma seclink_clear_emat_releases (s : Session) (h : nat) (em : EncryptedMatrix) :
  objects s !! h = Some em ->
  exists s', seclink_clear_emat s h = Some s' /\
    objects s' !! h = None /\ seclink_clear_emat s' h = None.
Proof.
  intros Hh. unfold seclink_clear_emat at 1. rewrite Hh.
  eexists. split; [reflexivity|].
  unfold seclink_clear_emat. simpl. rewrite lookup_delete_eq. auto.
Qed.

(** C7.  [create_context] fails with [InvalidParameters], and so returns no
    context, for every ring dimension that is not a supported power of two
    and for every plaintext modulus that is not a prime congruent to 1
    modulo twice the ring dimension. *)
Theorem create_context_rejects {Options : Type} (sup : nat -> bool)
    (bud : nat -> Z -> option Options -> bool) (opts : option Options)
    (n : nat) (p : Z) :
  (~ (exists k : nat, n = (2 ^ k)%nat) \/ sup n = false \/
   ~ Z.prime p \/ p mod (2 * Z.of_nat n) <> 1) ->
  create_context sup bud n p opts = Err InvalidParameters /\
  forall ctx, create_context sup bud n p opts <> Ok ctx.
Proof.
  intros H.
  assert (create_context sup bud n p opts = Err InvalidParameters) as E.
  { unfold create_context.
    destruct (is_pow2 n) eqn:Hpow; simpl; [|reflexivity].
    destruct (sup n) eqn:Hsup; simpl; [|reflexivity].
    destruct (batching_prime n p) eqn:Hbat; simpl; [|reflexivity].
    exfalso. unfold batching_prime in Hbat.
    apply andb_true_iff in Hbat as (Hprime & Hmod).
    apply is_prime_spec in Hprime. apply Z.eqb_eq in Hmod.
    apply is_pow2_spec in Hpow.
    destruct H as [H|[H|[H|H]]]; [tauto | congruence | tauto | tauto]. }
  split; [exact E|]. intros ctx. rewrite E. discriminate.
Qed.

Lemma create_context_rejects_witness :
  (create_context (Options := unit) (fun _ => true) (fun _ _ _ => true)
     4000 40961 None = Err InvalidParameters /\
   forall ctx,
     create_context (Options := unit) (fun _ => true) (fun _ _ _ => true)
       4000 40961 None <> Ok ctx) /\
  (create_context (Options := unit) (fun _ => true) (fun _ _ _ => true)
     4096 40963 None = Err InvalidParameters /\
   forall ctx,
     create_context (Options := unit) (fun _ => true) (fun _ _ _ => true)
       4096 40963 None <> Ok ctx).
Proof.
  split.
  - apply (create_context_rejects (Options := unit)
             (fun _ => true) (fun _ _ _ => true) None 4000 40961).
    left. intros (k & Hk).
    assert (is_pow2 4000 = true) as E by (apply is_pow2_spec; now exists k).
    vm_compute in E. discriminate.
  - apply (create_context_rejects (Options := unit)
             (fun _ => true) (fun _ _ _ => true) None 4096 40963).
    right. right. right. vm_compute. discriminate.
Defined.

(** The driver's parameters are accepted whenever the scheme offers the
    ring dimension and the budget suffices. *)
Lemma create_context_driver {Options : Type} (sup : nat -> bool)
    (bud : nat -> Z -> option Options -> bool) :
  sup poldeg = true -> bud poldeg plain_mod None = true ->
  create_context sup bud poldeg plain_mod None =
    Ok {| ring_dimension := poldeg; plaintext_modulus := plain_mod |}.
Proof.
  intros Hs Hb. apply create_context_ok.
  split; [vm_compute; reflexivity|].
  split; [assumption|].
  split; [apply plain_mod_batching|].
  split; [assumption | reflexivity].
Qed.

(** ** The scenario of [main] *)

(** Through the handles, the calls of [main] compute the pipeline. *)
Lemma engine_calls_pipeline (ctx : Context) (L R : list Z) (rows cols k : nat) :
  engine_calls ctx L R rows cols k =
    match pipeline ctx L R rows cols k with
    | Ok out => Some out
    | Err _ => None
    end.
Proof.
  unfold engine_calls, pipeline, seclink_encrypt_left, seclink_encrypt_right.
  destruct (encrypt_left ctx L rows cols) as [l|e]; simpl; [|reflexivity].
  destruct (encrypt_right ctx R cols k) as [r|e]; simpl; [|reflexivity].
  unfold seclink_multiply. simpl.
  rewrite lookup_insert_ne, !lookup_insert_eq by lia.
  destruct (multiply ctx l r) as [pr|e]; simpl; [|reflexivity].
  unfold seclink_decrypt. simpl. rewrite lookup_insert_eq.
  destruct (decrypt ctx rows k pr); reflexivity.
Qed.

Lemma sum_upto_shift (n : nat) (f : nat -> Z) :
  sum_upto (S n) f = f 0%nat + sum_upto n (fun j => f (S j)).
Proof.
  induction n as [|n IH]; [simpl; lia|].
  change (sum_upto (S (S n)) f) with (sum_upto (S n) f + f (S n)).
  rewrite IH. simpl. lia.
Qed.

Lemma dot_sum (a : list Z) :
  forall b, dot a b = sum_upto (length a) (fun j => nth j a 0 * nth j b 0).
Proof.
  induction a as [|x a IH]; intros b; [reflexivity|].
  simpl length. rewrite sum_upto_shift.
  destruct b as [|y b].
  - simpl. rewrite sum_upto_zero; [lia|]. intros j _. destruct j; lia.
  - simpl. now rewrite IH.
Qed.

Lemma fits64_bits (a : list Z) :
  forall b acc, Forall bit a -> Forall bit b ->
    0 <= acc -> acc + Z.of_nat (length a) <= INT64_MAX ->
    fits64 a b acc = true.
Proof.
  induction a as [|x a IH]; intros b acc Ha Hb Hacc Hmax; [reflexivity|].
  destruct b as [|y b]; [reflexivity|].
  inversion Ha as [|? ? Hx Ha']. inversion Hb as [|? ? Hy Hb']. subst.
  simpl length in Hmax. unfold bit in Hx, Hy.
  assert (0 <= x * y <= 1) by (destruct Hx, Hy; subst; lia).
  simpl. rewrite IH by (auto; lia).
  replace (in_int64 (x * y)) with true
    by (symmetry; apply in_int64_true; unfold INT64_MIN, INT64_MAX in *; lia).
  replace (in_int64 (acc + x * y)) with true
    by (symmetry; apply in_int64_true; unfold INT64_MIN, INT64_MAX in *; lia).
  reflexivity.
Qed.

(** Entry [(i, c)] of the product of [main] is the inner product of rows
    [i] and [c] of the left matrix. *)
Lemma entry_rows (i c : nat) :
  (i < nclks)%nat -> (c < nclks)%nat ->
  entry Linmat Rinmat clksz i c = dot (nth i clks []) (nth c clks []).
Proof.
  intros Hi Hc. rewrite dot_sum, clks_row_length by assumption.
  unfold entry. apply sum_upto_ext. intros j Hj.
  rewrite !clks_row_nth by assumption. reflexivity.
Qed.

(** What the reference of [main] returns *)
Lemma expected_value :
  expected =
    Ret (flat_map (fun c => [dot c (nth 0 clks []); dot c (nth 1 clks [])]) clks).
Proof.
  unfold expected. apply mat_vec_prod_ret.
  - rewrite clks_length, nclks_value. lia.
  - intros c Hc. apply (In_nth _ _ ([] : CLK)) in Hc as (i & Hi & <-).
    rewrite clks_length in Hi.
    rewrite !clks_row_length; [reflexivity | rewrite nclks_value; lia | assumption].
  - intros c Hc. apply (In_nth _ _ ([] : CLK)) in Hc as (i & Hi & <-).
    rewrite clks_length in Hi.
    split; apply fits64_bits;
      try (apply clks_row_bits; rewrite ?nclks_value in *; lia);
      try lia;
      rewrite clks_row_length by assumption;
      unfold clksz, INT64_MAX; lia.
Qed.

(** In the call of [main], ciphertext [c] of the right operand holds row
    [c] of the left matrix in its first 512 slots. *)
Lemma probe_ciphertexts_hold_rows (ctx : Context) (c s : nat) :
  (clksz <= ring_dimension ctx)%nat -> (c < 2)%nat -> (s < clksz)%nat ->
  nth s (pack_column ctx Rinmat clksz c) 0 =
    nth s (nth c clks []) 0 mod plaintext_modulus ctx.
Proof.
  intros Hn Hc Hs. unfold pack_column. rewrite tabulate_nth by lia.
  apply Nat.ltb_lt in Hs as Hs'. rewrite Hs'.
  rewrite clks_row_nth; [reflexivity | rewrite nclks_value; lia | assumption].
Qed.

(** Had the right packer read the buffer row-major, entry (0, 0) of the
    product would be 116, while the reference has 249 there: the check of
    [main] passes only with the column-after-column reading. *)
Lemma row_major_probe_differs :
  sum_upto clksz
    (fun j => row_major Linmat clksz 0 j * row_major Rinmat 2 j 0) = 116 /\
  sum_upto clksz
    (fun j => row_major Linmat clksz 0 j * column_major Rinmat clksz j 0) = 249.
Proof.
  split.
  - rewrite (sum_upto_ext clksz _ (fun j => Linmat_at j * Linmat_at (j * 2 + 0))).
    + vm_compute. reflexivity.
    + intros j Hj. unfold row_major, Rinmat.
      rewrite !Linmat_nth by (rewrite nclks_value; unfold clksz in *; lia).
      reflexivity.
  - rewrite (sum_upto_ext clksz _ (fun j => Linmat_at j * Linmat_at j)).
    + vm_compute. reflexivity.
    + intros j Hj. unfold row_major, column_major, Rinmat.
      rewrite !Linmat_nth by (rewrite nclks_value; unfold clksz in *; lia).
      reflexivity.
Qed.

Lemma entry_rows_small (i c : nat) :
  (i < nclks)%nat -> (c < 2)%nat ->
  2 * Z.abs (entry Linmat Rinmat clksz i c) < plain_mod.
Proof.
  intros Hi Hc.
  assert (c < nclks)%nat as Hc' by (rewrite nclks_value; lia).
  rewrite entry_rows by assumption.
  pose proof (dot_bits (nth i clks []) (nth c clks [])
                (clks_row_bits i Hi) (clks_row_bits c Hc')) as H.
  rewrite clks_row_length in H by assumption.
  unfold clksz in H. unfold plain_mod. lia.
Qed.

(** The plaintext product of [main]'s operands is what the reference
    computes. *)
Lemma mat_mul_reference :
  mat_mul Linmat Rinmat nrows clksz 2 =
    flat_map (fun c => [dot c (nth 0 clks []); dot c (nth 1 clks [])]) clks.
Proof.
  apply (nth_ext _ _ 0 0).
  - unfold mat_mul. rewrite tabulate_length, flat_map_pairs_length, clks_length.
    unfold nrows. lia.
  - intros t Ht. unfold mat_mul in *. rewrite tabulate_length in Ht.
    rewrite tabulate_nth by assumption.
    destruct (flat_index nrows 2 t Ht) as (Hi & Hc). unfold nrows in Hi.
    assert (t mod 2 < nclks)%nat as Hc' by (rewrite nclks_value; lia).
    rewrite entry_rows by assumption.
    pose proof (flat_map_pairs_nth (fun c => dot c (nth 0 clks []))
                  (fun c => dot c (nth 1 clks [])) [] clks (t / 2)) as Hp.
    rewrite clks_length in Hp. destruct (Hp Hi) as (H0 & H1).
    pose proof (Nat.div_mod_eq t 2) as Ht2.
    destruct (t mod 2)%nat as [|[|m]] eqn:Em; [| |lia].
    + replace t with (2 * (t / 2))%nat at 2 by lia. now rewrite H0.
    + replace t with (2 * (t / 2) + 1)%nat at 2 by lia. now rewrite H1.
Qed.

(** What the engine calls of [main] leave in [output] *)
Lemma output_value :
  output {| ring_dimension := poldeg; plaintext_modulus := plain_mod |} =
    Some (mat_mul Linmat Rinmat nrows clksz 2).
Proof.
  unfold output. rewrite engine_calls_pipeline.
  rewrite pipeline_exact; [reflexivity | | |].
  - vm_compute. reflexivity.
  - cbn [ring_dimension]. unfold clksz, poldeg. lia.
  - intros i c Hi Hc. cbn [plaintext_modulus]. now apply entry_rows_small.
Qed.

(** C2.  With ring dimension 4096 and plaintext modulus 40961, the 2048 x
    512 matrix of bits as left operand and its first two rows as the two
    columns of the right operand, the decrypted output is the 2048 x 2
    matrix whose entry [(i, c)] is the exact inner product of rows [i] and
    [c] of the left matrix, and it is the vector that the driver's
    reference [mat_vec_prod] returns. *)
Theorem driver_scenario {Options : Type} (sup : nat -> bool)
    (bud : nat -> Z -> option Options -> bool) (ctx : Context) :
  create_context sup bud poldeg plain_mod None = Ok ctx ->
  exists out,
    output ctx = Some out /\
    expected = Ret out /\
    length out = (nclks * 2)%nat /\
    forall i c, (i < nclks)%nat -> (c < 2)%nat ->
      nth (i * 2 + c) out 0 = dot (nth i clks []) (nth c clks []).
Proof.
  intros Hctx. apply create_context_ok in Hctx as (_ & _ & _ & _ & ->).
  exists (mat_mul Linmat Rinmat nrows clksz 2). split; [|split; [|split]].
  - apply output_value.
  - rewrite mat_mul_reference. apply expected_value.
  - unfold mat_mul. rewrite tabulate_length. reflexivity.
  - intros i c Hi Hc. unfold mat_mul. rewrite tabulate_nth by (unfold nrows; lia).
    destruct (index_flat 2 i c Hc) as (-> & ->).
    apply entry_rows; [assumption | rewrite nclks_value; lia].
Qed.

Lemma driver_scenario_witness :
  exists out,
    output {| ring_dimension := poldeg; plaintext_modulus := plain_mod |}
      = Some out /\
    expected = Ret out /\
    length out = (nclks * 2)%nat /\
    forall i c, (i < nclks)%nat -> (c < 2)%nat ->
      nth (i * 2 + c) out 0 = dot (nth i clks []) (nth c clks []).
Proof.
  apply (driver_scenario (Options := unit) (fun _ => true) (fun _ _ _ => true)).
  vm_compute. reflexivity.
Defined.

(** The verdict of [main]: on the decrypted output and the reference,
    [check_result] adds nothing to the console. *)
Lemma main_check_passes {Options : Type} (sup : nat -> bool)
    (bud : nat -> Z -> option Options -> bool) (ctx : Context)
    (console : string) :
  create_context sup bud poldeg plain_mod None = Ok ctx ->
  exists out m',
    output ctx = Some out /\
    expected = Ret out /\
    check_result "emat  vec" (Machine out out console 0) = Ret m' /\
    cout m' = console.
Proof.
  intros Hctx. apply create_context_ok in Hctx as (_ & _ & _ & _ & ->).
  destruct (check_result_silent "emat  vec"
              (Machine (mat_mul Linmat Rinmat nrows clksz 2)
                       (mat_mul Linmat Rinmat nrows clksz 2) console 0)
              eq_refl) as (m' & Hrun & Hm).
  exists (mat_mul Linmat Rinmat nrows clksz 2), m'.
  split; [apply output_value|].
  split; [rewrite mat_mul_reference; apply expected_value|].
  split; [exact Hrun | apply Hm].
Qed.

(** * Further properties of the driver *)

(** ** [std::inner_product] as [mat_vec_prod] calls it *)

(** X1.  [inner_product] in closed form: it overflows exactly when some
    product or running sum over the common prefix does not fit in 64 bits;
    otherwise it reads past the second range exactly when that range is the
    shorter one; otherwise it returns the initial value plus the exact
    inner product. *)
Theorem inner_product_closed_form (a b : list Z) (acc : Z) :
  inner_product a b acc =
    if fits64 a b acc then
      if (length a <=? length b)%nat then Ret (acc + dot a b)
      else Undef OutOfBounds
    else Undef SignedOverflow.
Proof.
  revert b acc. induction a as [|x a IH]; intros b acc.
  - simpl. f_equal. lia.
  - destruct b as [|y b]; [reflexivity|].
    simpl. unfold mul64, add64, checked64.
    destruct (in_int64 (x * y)); [|reflexivity]. simpl.
    destruct (in_int64 (acc + x * y)); [|reflexivity]. simpl.
    rewrite IH. destruct (fits64 a b (acc + x * y)); [|reflexivity].
    destruct (length a <=? length b)%nat; [|reflexivity].
    f_equal. lia.
Qed.

Example inner_product_runs_out :
  inner_product [1; 2; 3] [4; 5] 0 = Undef OutOfBounds.
Proof. reflexivity. Qed.

Example inner_product_overflow_first :
  inner_product [2 ^ 62; 1; 1] [4] 0 = Undef SignedOverflow.
Proof. reflexivity. Qed.

(** ** [mat_vec_prod] on lists of any shape *)

Lemma dot_comm (a : list Z) : forall b, dot a b = dot b a.
Proof.
  induction a as [|x a IH]; intros [|y b]; simpl; try reflexivity.
  rewrite IH. lia.
Qed.

Lemma mat_vec_prod_loop_inv (l : list CLK) (row1 row2 : CLK) :
  forall res out, mat_vec_prod_loop l row1 row2 res = Ret out ->
    forall c, In c l ->
      (length c <= length row1)%nat /\ (length c <= length row2)%nat /\
      fits64 c row1 0 = true /\ fits64 c row2 0 = true.
Proof.
  induction l as [|c l IH]; intros res out H c' Hc'; [contradiction|].
  simpl in H.
  apply bind_ret in H as (a & Ha & H). apply bind_ret in H as (b & Hb & H).
  destruct Hc' as [<-|Hc'].
  - apply inner_product_ret in Ha, Hb. tauto.
  - eapply IH; eauto.
Qed.

Lemma mat_vec_prod_inv (clks : list CLK) (res : list Z) :
  mat_vec_prod clks = Ret res ->
  (2 <= length clks)%nat /\
  (forall c, In c clks ->
     (length c <= length (nth 0 clks []))%nat /\
     (length c <= length (nth 1 clks []))%nat /\
     fits64 c (nth 0 clks []) 0 = true /\ fits64 c (nth 1 clks []) 0 = true) /\
  res = flat_map (fun c => [dot c (nth 0 clks []); dot c (nth 1 clks [])]) clks.
Proof.
  intros H.
  assert (2 <= length clks)%nat as Hn.
  { destruct clks as [|c0 [|c1 rest]]; simpl in *; try discriminate. lia. }
  unfold mat_vec_prod in H.
  rewrite (index_nth [] clks 0), (index_nth [] clks 1) in H by lia.
  simpl in H. split; [assumption|].
  pose proof (mat_vec_prod_loop_inv _ _ _ _ _ H) as Hall.
  split; [assumption|].
  rewrite mat_vec_prod_loop_ret in H by assumption.
  inversion H. reflexivity.
Qed.

Lemma mat_vec_prod_intro (clks : list CLK) :
  (2 <= length clks)%nat ->
  (forall c, In c clks ->
     (length c <= length (nth 0 clks []))%nat /\
     (length c <= length (nth 1 clks []))%nat /\
     fits64 c (nth 0 clks []) 0 = true /\ fits64 c (nth 1 clks []) 0 = true) ->
  mat_vec_prod clks =
    Ret (flat_map (fun c => [dot c (nth 0 clks []); dot c (nth 1 clks [])]) clks).
Proof.
  intros Hn Hall. unfold mat_vec_prod.
  rewrite (index_nth [] clks 0), (index_nth [] clks 1) by lia. simpl.
  now rewrite mat_vec_prod_loop_ret.
Qed.

(** X2.  [mat_vec_prod] returns exactly when there are at least two CLKs,
    no CLK is longer than the first or the second one, and no product or
    running sum overflows; what it returns is then, CLK after CLK, the
    inner product with the first and with the second CLK, each taken over
    the length of the CLK. *)
Theorem mat_vec_prod_returns_iff (clks : list CLK) (res : list Z) :
  mat_vec_prod clks = Ret res <->
  (2 <= length clks)%nat /\
  (forall c, In c clks ->
     (length c <= length (nth 0 clks []))%nat /\
     (length c <= length (nth 1 clks []))%nat /\
     fits64 c (nth 0 clks []) 0 = true /\ fits64 c (nth 1 clks []) 0 = true) /\
  res = flat_map (fun c => [dot c (nth 0 clks []); dot c (nth 1 clks [])]) clks.
Proof.
  split.
  - apply mat_vec_prod_inv.
  - intros (Hn & Hall & ->). now apply mat_vec_prod_intro.
Qed.

Lemma mat_vec_prod_returns_iff_witness :
  mat_vec_prod [[1; 2; 3]; [4; 5; 6]; [7]] = Ret [14; 32; 32; 77; 7; 28].
Proof.
  apply (proj2 (mat_vec_prod_returns_iff [[1; 2; 3]; [4; 5; 6]; [7]]
                  [14; 32; 32; 77; 7; 28])).
  split; [simpl; lia|]. split; [|reflexivity].
  intros c [<-|[<-|[<-|[]]]]; repeat split; try (simpl; lia); reflexivity.
Defined.

(** X3.  Whenever [mat_vec_prod] returns, the first two CLKs have the same
    length, and elements 1 and 2 of the result are equal: the inner
    product of CLK 0 with CLK 1 and that of CLK 1 with CLK 0. *)
Theorem mat_vec_prod_first_rows (clks : list CLK) (res : list Z) :
  mat_vec_prod clks = Ret res ->
  length (nth 0 clks []) = length (nth 1 clks []) /\
  nth 1 res 0 = nth 2 res 0 /\
  nth 1 res 0 = dot (nth 0 clks []) (nth 1 clks []).
Proof.
  intros H. apply mat_vec_prod_inv in H as (Hn & Hall & ->).
  assert (0 < length clks)%nat as H0 by lia.
  assert (1 < length clks)%nat as H1 by lia.
  destruct (Hall (nth 0 clks []) (nth_In clks [] H0)) as (_ & L01 & _).
  destruct (Hall (nth 1 clks []) (nth_In clks [] H1)) as (L10 & _).
  split; [lia|].
  destruct clks as [|c0 [|c1 rest]]; simpl in Hn; try lia.
  simpl. split; [apply dot_comm | reflexivity].
Qed.

Lemma mat_vec_prod_first_rows_witness :
  length (nth 0 [[1; 2; 3]; [4; 5; 6]; [7]] []) =
    length (nth 1 [[1; 2; 3]; [4; 5; 6]; [7]] []) /\
  nth 1 [14; 32; 32; 77; 7; 28] 0 = nth 2 [14; 32; 32; 77; 7; 28] 0 /\
  nth 1 [14; 32; 32; 77; 7; 28] 0 =
    dot (nth 0 [[1; 2; 3]; [4; 5; 6]; [7]] []) (nth 1 [[1; 2; 3]; [4; 5; 6]; [7]] []).
Proof.
  apply (mat_vec_prod_first_rows [[1; 2; 3]; [4; 5; 6]; [7]]). reflexivity.
Defined.

Lemma dot_bits_le (a : list Z) :
  forall b, Forall bit a -> Forall bit b -> dot a b <= dot b b.
Proof.
  induction a as [|x a IH]; intros b Ha Hb.
  - simpl. apply (dot_bits b b Hb Hb).
  - destruct b as [|y b]; [simpl; lia|].
    inversion Ha as [|? ? Hx Ha']. inversion Hb as [|? ? Hy Hb']. subst.
    specialize (IH b Ha' Hb'). simpl. unfold bit in Hx, Hy.
    assert (x * y <= y * y) by (destruct Hx, Hy; subst; lia). lia.
Qed.

(** X4.  On at least two CLKs of bits, all of one length, [mat_vec_prod]
    always returns (no overflow is possible), and every score is bounded by
    the number of set bits of the probe row: element [2i] lies between 0
    and element 0, element [2i+1] between 0 and element 3, and neither
    exceeds the CLK length. *)
Theorem mat_vec_prod_bits (clks : list CLK) :
  (2 <= length clks)%nat ->
  (forall c, In c clks -> length c = length (nth 0 clks [])) ->
  (forall c, In c clks -> Forall bit c) ->
  Z.of_nat (length (nth 0 clks [])) <= INT64_MAX ->
  exists res,
    mat_vec_prod clks = Ret res /\
    forall i, (i < length clks)%nat ->
      0 <= nth (2 * i) res 0 <= nth 0 res 0 /\
      0 <= nth (2 * i + 1) res 0 <= nth 3 res 0 /\
      nth 0 res 0 <= Z.of_nat (length (nth 0 clks [])) /\
      nth 3 res 0 <= Z.of_nat (length (nth 0 clks [])).
Proof.
  intros Hn Heq Hbits Hmax.
  assert (0 < length clks)%nat as H0 by lia.
  assert (1 < length clks)%nat as H1 by lia.
  pose proof (Hbits _ (nth_In clks [] H0)) as B0.
  pose proof (Hbits _ (nth_In clks [] H1)) as B1.
  pose proof (Heq _ (nth_In clks [] H1)) as E1.
  eexists. split.
  - apply mat_vec_prod_ret; try assumption.
    intros c Hc. split; apply fits64_bits; auto; rewrite ?(Heq c Hc); lia.
  - intros i Hi.
    pose proof (flat_map_pairs_nth (fun c => dot c (nth 0 clks []))
                  (fun c => dot c (nth 1 clks [])) [] clks) as Hp.
    destruct (Hp i Hi) as (-> & ->).
    destruct (Hp 0%nat H0) as (E00 & _). destruct (Hp 1%nat H1) as (_ & E11).
    change (2 * 0)%nat with 0%nat in E00. change (2 * 1 + 1)%nat with 3%nat in E11.
    rewrite E00, E11.
    pose proof (Hbits _ (nth_In clks [] Hi)) as Bi.
    pose proof (dot_bits _ _ Bi B0). pose proof (dot_bits _ _ Bi B1).
    pose proof (dot_bits_le _ _ Bi B0). pose proof (dot_bits_le _ _ Bi B1).
    pose proof (dot_bits _ _ B0 B0). pose proof (dot_bits _ _ B1 B1). lia.
Qed.

Lemma mat_vec_prod_bits_witness :
  exists res,
    mat_vec_prod [[1; 0; 1]; [1; 1; 0]; [0; 1; 1]] = Ret res /\
    forall i, (i < 3)%nat ->
      0 <= nth (2 * i) res 0 <= nth 0 res 0 /\
      0 <= nth (2 * i + 1) res 0 <= nth 3 res 0 /\
      nth 0 res 0 <= 3 /\ nth 3 res 0 <= 3.
Proof.
  apply (mat_vec_prod_bits [[1; 0; 1]; [1; 1; 0]; [0; 1; 1]]).
  - simpl. lia.
  - intros c [<-|[<-|[<-|[]]]]; reflexivity.
  - intros c [<-|[<-|[<-|[]]]]; repeat constructor; unfold bit; lia.
  - vm_compute. discriminate.
Defined.

(** X5.  CLKs after the second do not influence what comes before them:
    if [mat_vec_prod] returns on a list extended by further CLKs, it
    returns on the list itself, and that result is the first [2n] elements
    of the longer one. *)
Theorem mat_vec_prod_app (clks more : list CLK) (res : list Z) :
  (2 <= length clks)%nat ->
  mat_vec_prod (clks ++ more) = Ret res ->
  mat_vec_prod clks = Ret (firstn (2 * length clks) res) /\
  length res = (2 * (length clks + length more))%nat.
Proof.
  intros Hn H. apply mat_vec_prod_inv in H as (_ & Hall & ->).
  rewrite !app_nth1 in * by lia.
  split.
  - rewrite flat_map_app, firstn_app.
    rewrite flat_map_pairs_length, Nat.sub_diag. simpl firstn at 2.
    rewrite app_nil_r, firstn_all2 by (rewrite flat_map_pairs_length; lia).
    apply mat_vec_prod_intro; [assumption|].
    intros c Hc. apply Hall. apply in_or_app. now left.
  - rewrite flat_map_pairs_length, length_app. reflexivity.
Qed.

Lemma mat_vec_prod_app_witness :
  mat_vec_prod [[1; 2; 3]; [4; 5; 6]] =
    Ret (firstn (2 * 2) [14; 32; 32; 77; 7; 28]) /\
  length [14; 32; 32; 77; 7; 28] = (2 * (2 + 1))%nat.
Proof.
  apply (mat_vec_prod_app [[1; 2; 3]; [4; 5; 6]] [[7]]).
  - simpl. lia.
  - reflexivity.
Defined.

(** ** What [check_result] counts and reports *)

Lemma skipn_nth_cons (l : list Z) (i : nat) :
  (i < length l)%nat -> skipn i l = nth i l 0 :: skipn (S i) l.
Proof.
  revert i. induction l as [|x l IH]; intros i Hi; [simpl in Hi; lia|].
  destruct i as [|i]; [reflexivity|].
  simpl in Hi. change (skipn (S i) (x :: l)) with (skipn i l).
  rewrite IH by lia. reflexivity.
Qed.

Lemma to_int_small (i : nat) :
  Z.of_nat i <= INT_MAX -> to_int (Z.of_nat i) = Z.of_nat i.
Proof.
  unfold to_int, INT_MAX. intros Hi.
  rewrite Z.mod_small by lia. lia.
Qed.

Lemma incr_int_ret (n : Z) :
  0 <= n -> n + 1 <= INT_MAX -> incr_int n = Ret (n + 1).
Proof.
  intros H0 H1. unfold incr_int, in_int, INT_MIN, INT_MAX in *.
  replace ((- 2 ^ 31 <=? n + 1) && (n + 1 <=? 2 ^ 31 - 1)) with true
    by (symmetry; apply andb_true_iff; split; apply Z.leb_le; lia).
  reflexivity.
Qed.

Lemma incr_int_overflow (n : Z) :
  INT_MAX < n + 1 -> incr_int n = Undef SignedOverflow.
Proof.
  intros H. unfold incr_int, in_int, INT_MAX in *.
  replace (n + 1 <=? 2 ^ 31 - 1) with false
    by (symmetry; apply Z.leb_gt; lia).
  now rewrite andb_false_r.
Qed.

(** The loop from position [i] on: the counter grows by the number of
    mismatches in the rest of the vectors, or overflows. *)
Lemma check_loop_count (n : nat) :
  forall i fw nw m,
    (i + n = length (vec_output m))%nat ->
    length (vec_expected m) = length (vec_output m) ->
    0 <= nw <= INT_MAX ->
    (nw + Z.of_nat (count_mismatch (skipn i (vec_output m))
                                   (skipn i (vec_expected m))) <= INT_MAX ->
     exists fw' m',
       check_loop n i fw nw m =
         Ret (fw', nw + Z.of_nat (count_mismatch (skipn i (vec_output m))
                                                 (skipn i (vec_expected m))), m') /\
       only_compared n m m' /\
       (Z.of_nat (length (vec_output m)) <= INT_MAX ->
        fw' = if fw <? 0
              then match first_mismatch (skipn i (vec_output m))
                                        (skipn i (vec_expected m)) with
                   | Some j => Z.of_nat (i + j)
                   | None => fw
                   end
              else fw)) /\
    (INT_MAX < nw + Z.of_nat (count_mismatch (skipn i (vec_output m))
                                             (skipn i (vec_expected m))) ->
     check_loop n i fw nw m = Undef SignedOverflow).
Proof.
  induction n as [|n IH]; intros i fw nw m Hin Hlen Hnw.
  - rewrite !skipn_all2 by lia. simpl. split.
    + intros _. exists fw, m. rewrite Z.add_0_r. split; [reflexivity|].
      split; [unfold only_compared; repeat split; lia|].
      intros _. now destruct (fw <? 0).
    + lia.
  - rewrite (skipn_nth_cons (vec_output m) i),
            (skipn_nth_cons (vec_expected m) i) by lia.
    simpl count_mismatch. simpl first_mismatch. simpl check_loop.
    rewrite differ_at_ret by lia. simpl.
    destruct (IH (S i) fw nw (tick m)) as (IHok & IHov); simpl; try lia.
    simpl in IHok, IHov.
    destruct (nth i (vec_output m) 0 =? nth i (vec_expected m) 0) eqn:E; simpl.
    + split.
      * intros Hk. destruct (IHok Hk) as (fw' & m' & Hrun & Hm & Hfw).
        exists fw', m'. split; [exact Hrun|].
        split; [now apply only_compared_tick|].
        intros Hmax. rewrite (Hfw Hmax).
        destruct (fw <? 0); [|reflexivity].
        destruct (first_mismatch _ _); simpl; [f_equal; lia | reflexivity].
      * exact IHov.
    + set (k := count_mismatch (skipn (S i) (vec_output m))
                               (skipn (S i) (vec_expected m))) in *.
      split.
      * intros Hk. rewrite incr_int_ret by lia. simpl.
        destruct (IH (S i)
                    (if fw <? 0 then to_int (Z.of_nat i) else fw)
                    (nw + 1) (tick m)) as (IHok' & _); simpl; try lia.
        simpl in IHok'. fold k in IHok'.
        destruct IHok' as (fw' & m' & Hrun & Hm & Hfw); [lia|].
        exists fw', m'.
        replace (nw + Z.of_nat (S k)) with (nw + 1 + Z.of_nat k) by lia.
        split; [exact Hrun|]. split; [now apply only_compared_tick|].
        intros Hmax. rewrite (Hfw Hmax).
        destruct (fw <? 0) eqn:Efw.
        -- rewrite to_int_small by lia.
           replace (Z.of_nat i <? 0) with false by (symmetry; apply Z.ltb_ge; lia).
           f_equal. lia.
        -- now rewrite Efw.
      * intros Hk.
        destruct (Z.le_gt_cases (nw + 1) INT_MAX) as [Hfit|Hfit].
        -- rewrite incr_int_ret by lia. simpl.
           destruct (IH (S i)
                       (if fw <? 0 then to_int (Z.of_nat i) else fw)
                       (nw + 1) (tick m)) as (_ & IHov'); simpl; try lia.
           simpl in IHov'. fold k in IHov'. apply IHov'. lia.
        -- rewrite incr_int_overflow by lia. reflexivity.
Qed.

Lemma count_mismatch_le (o : list Z) :
  forall e, (count_mismatch o e <= length o)%nat.
Proof.
  induction o as [|x o IH]; intros [|y e]; simpl; try lia.
  specialize (IH e). destruct (x =? y); lia.
Qed.

(** [first_mismatch] finds the least position at which the vectors differ. *)
Lemma first_mismatch_least (o : list Z) :
  forall e j,
    (j < length o)%nat -> (j < length e)%nat ->
    nth j o 0 <> nth j e 0 ->
    (forall i, (i < j)%nat -> nth i o 0 = nth i e 0) ->
    first_mismatch o e = Some j /\ (0 < count_mismatch o e)%nat.
Proof.
  induction o as [|x o IH]; intros e j Ho He Hj Hlt; [simpl in Ho; lia|].
  destruct e as [|y e]; [simpl in He; lia|].
  simpl. destruct j as [|j].
  - simpl in Hj. apply Z.eqb_neq in Hj. rewrite Hj. split; [reflexivity | lia].
  - pose proof (Hlt 0%nat ltac:(lia)) as H0. simpl in H0.
    apply Z.eqb_eq in H0. rewrite H0.
    destruct (IH e j) as (-> & Hc); simpl in *; try lia; auto.
    intros i Hi. apply (Hlt (S i)). lia.
Qed.

Lemma check_result_run (pre : string) (m : machine) :
  length (vec_output m) = length (vec_expected m) ->
  Z.of_nat (count_mismatch (vec_output m) (vec_expected m)) <= INT_MAX ->
  exists fw m1,
    check_loop (length (vec_output m)) 0 (-1) 0 m =
      Ret (fw, Z.of_nat (count_mismatch (vec_output m) (vec_expected m)), m1) /\
    only_compared (length (vec_output m)) m m1 /\
    (Z.of_nat (length (vec_output m)) <= INT_MAX ->
     fw = match first_mismatch (vec_output m) (vec_expected m) with
          | Some j => Z.of_nat j
          | None => -1
          end).
Proof.
  intros Hlen Hk.
  destruct (check_loop_count (length (vec_output m)) 0 (-1) 0 m)
    as (Hok & _); try (unfold INT_MAX; simpl; lia).
  simpl in Hok. destruct (Hok Hk) as (fw & m1 & Hrun & Hm & Hfw).
  exists fw, m1. auto.
Qed.

Lemma check_result_reports (pre : string) (m : machine) (j : nat) :
  length (vec_output m) = length (vec_expected m) ->
  Z.of_nat (length (vec_output m)) <= INT_MAX ->
  (j < length (vec_output m))%nat ->
  nth j (vec_output m) 0 <> nth j (vec_expected m) 0 ->
  (forall i, (i < j)%nat -> nth i (vec_output m) 0 = nth i (vec_expected m) 0) ->
  exists m',
    check_result pre m = Ret m' /\
    cout m' =
      (cout m ++
       failures pre
         (Z.of_nat (count_mismatch (vec_output m) (vec_expected m)))
         (Z.of_nat j) m)%string /\
    compared m' = (compared m + length (vec_output m))%nat /\
    vec_expected m' = vec_expected m /\ vec_output m' = vec_output m.
Proof.
  intros Hlen Hmax Hj Hne Hlt.
  destruct (first_mismatch_least (vec_output m) (vec_expected m) j)
    as (Hfirst & Hpos); try assumption; try lia.
  pose proof (count_mismatch_le (vec_output m) (vec_expected m)) as Hle.
  destruct (check_result_run pre m Hlen) as (fw & m1 & Hrun & Hm & Hfw); [lia|].
  rewrite Hfirst in Hfw. specialize (Hfw Hmax). subst fw.
  destruct Hm as (He & Ho & Hc & Hn).
  unfold check_result. rewrite Hlen, Nat.eqb_refl. simpl.
  rewrite <- Hlen, Hrun. simpl.
  replace (0 <? Z.of_nat (count_mismatch (vec_output m) (vec_expected m)))
    with true by (symmetry; apply Z.ltb_lt; lia).
  eexists. split; [reflexivity|]. simpl.
  unfold failures. rewrite Hc, Ho. auto.
Qed.

(** X6.  On vectors of one size below [2^31] that differ somewhere,
    [check_result] compares every pair once and prints exactly one line:
    the number of differing positions, the size, and the first differing
    position. *)
Theorem check_result_failure_line (pre : string) (m : machine) (j : nat) :
  length (vec_output m) = length (vec_expected m) ->
  Z.of_nat (length (vec_output m)) <= INT_MAX ->
  (j < length (vec_output m))%nat ->
  nth j (vec_output m) 0 <> nth j (vec_expected m) 0 ->
  (forall i, (i < j)%nat -> nth i (vec_output m) 0 = nth i (vec_expected m) 0) ->
  exists m',
    check_result pre m = Ret m' /\
    cout m' =
      (cout m ++
       failures pre
         (Z.of_nat (count_mismatch (vec_output m) (vec_expected m)))
         (Z.of_nat j) m)%string /\
    compared m' = (compared m + length (vec_output m))%nat /\
    vec_expected m' = vec_expected m /\ vec_output m' = vec_output m.
Proof. apply check_result_reports. Qed.

Lemma check_result_failure_line_witness :
  exists m',
    check_result "t" (Machine [1; 2; 3; 4] [1; 5; 3; 7] "" 0) = Ret m' /\
    cout m' =
      ("" ++ failures "t"
               (Z.of_nat (count_mismatch [1; 5; 3; 7] [1; 2; 3; 4]))
               (Z.of_nat 1) (Machine [1; 2; 3; 4] [1; 5; 3; 7] "" 0))%string /\
    compared m' = (0 + 4)%nat /\
    vec_expected m' = [1; 2; 3; 4] /\ vec_output m' = [1; 5; 3; 7].
Proof.
  apply (check_result_failure_line "t" (Machine [1; 2; 3; 4] [1; 5; 3; 7] "" 0) 1).
  - reflexivity.
  - vm_compute. discriminate.
  - simpl. lia.
  - simpl. lia.
  - intros [|i] Hi; [reflexivity | lia].
Defined.

(** X7.  [check_result] returns unless its [int] counter overflows: it
    returns whenever the sizes differ or at most [INT_MAX] positions
    differ, and with equal sizes and more than [INT_MAX] differing
    positions the increment of [nwrong] overflows.  It never indexes out
    of bounds. *)
Theorem check_result_defined_iff (pre : string) (m : machine) :
  (length (vec_output m) <> length (vec_expected m) \/
   Z.of_nat (count_mismatch (vec_output m) (vec_expected m)) <= INT_MAX ->
   exists m', check_result pre m = Ret m') /\
  (length (vec_output m) = length (vec_expected m) ->
   INT_MAX < Z.of_nat (count_mismatch (vec_output m) (vec_expected m)) ->
   check_result pre m = Undef SignedOverflow) /\
  check_result pre m <> Undef OutOfBounds.
Proof.
  assert (length (vec_output m) = length (vec_expected m) ->
          INT_MAX < Z.of_nat (count_mismatch (vec_output m) (vec_expected m)) ->
          check_result pre m = Undef SignedOverflow) as Hov.
  { intros Hlen Hk. unfold check_result. rewrite Hlen, Nat.eqb_refl. simpl.
    rewrite <- Hlen.
    destruct (check_loop_count (length (vec_output m)) 0 (-1) 0 m)
      as (_ & Hbad); try (unfold INT_MAX; simpl; lia).
    simpl in Hbad. now rewrite (Hbad Hk). }
  assert (length (vec_output m) <> length (vec_expected m) \/
          Z.of_nat (count_mismatch (vec_output m) (vec_expected m)) <= INT_MAX ->
          exists m', check_result pre m = Ret m') as Hok.
  { intros H. unfold check_result.
    destruct (length (vec_output m) =? length (vec_expected m))%nat eqn:Hsz; simpl.
    - apply Nat.eqb_eq in Hsz. destruct H as [H|H]; [contradiction|].
      destruct (check_result_run pre m Hsz H) as (fw & m1 & Hrun & _).
      rewrite Hrun. simpl.
      destruct (0 <? _); eexists; reflexivity.
    - eexists. reflexivity. }
  split; [exact Hok|]. split; [exact Hov|].
  destruct (Nat.eq_dec (length (vec_output m)) (length (vec_expected m))) as [E|E].
  - destruct (Z.le_gt_cases
                (Z.of_nat (count_mismatch (vec_output m) (vec_expected m)))
                INT_MAX) as [Hk|Hk].
    + destruct (Hok (or_intror Hk)) as (m' & ->). discriminate.
    + rewrite (Hov E Hk). discriminate.
  - destruct (Hok (or_introl E)) as (m' & ->). discriminate.
Qed.

Lemma check_result_defined_iff_witness :
  exists m', check_result "t" (Machine [1; 2; 3; 4] [1; 5; 3; 7] "" 0) = Ret m'.
Proof.
  apply (proj1 (check_result_defined_iff "t"
                  (Machine [1; 2; 3; 4] [1; 5; 3; 7] "" 0))).
  right. vm_compute. discriminate.
Defined.

Lemma count_mismatch_repeat (x y : Z) (n : nat) :
  x <> y -> count_mismatch (repeat x n) (repeat y n) = n.
Proof.
  intros Hne. apply Z.eqb_neq in Hne.
  induction n as [|n IH]; simpl; [reflexivity|]. now rewrite Hne, IH.
Qed.

(** Two vectors of [2^31] or more elements that differ everywhere: the
    counter overflows. *)
Lemma check_result_overflows (pre console : string) (n : nat) :
  INT_MAX < Z.of_nat n ->
  check_result pre (Machine (repeat 0 n) (repeat 1 n) console 0) =
    Undef SignedOverflow.
Proof.
  intros Hn. unfold check_result. cbn [vec_output vec_expected].
  rewrite !repeat_length, Nat.eqb_refl. cbn [negb].
  destruct (check_loop_count n 0 (-1) 0
              (Machine (repeat 0 n) (repeat 1 n) console 0)) as (_ & Hbad).
  - cbn [vec_output]. now rewrite repeat_length.
  - cbn [vec_output vec_expected]. now rewrite !repeat_length.
  - unfold INT_MAX. lia.
  - cbn [vec_output vec_expected] in Hbad.
    change (skipn 0 ?l) with l in Hbad.
    rewrite count_mismatch_repeat in Hbad by discriminate.
    rewrite Hbad; [reflexivity | lia].
Qed.

(** ** The slicing loop of [main] *)

Lemma firstn_app_skipn {A : Type} (a b : nat) (l : list A) :
  firstn a l ++ firstn b (skipn a l) = firstn (a + b) l.
Proof.
  revert l. induction a as [|a IH]; intros l; [reflexivity|].
  destruct l as [|x l]; simpl.
  - now rewrite firstn_nil.
  - now rewrite IH.
Qed.

Lemma slice_clks_concat (n : nat) :
  forall iter buf,
    concat (slice_clks n iter buf) = firstn (n * clksz) (skipn iter buf).
Proof.
  induction n as [|n IH]; intros iter buf; [reflexivity|].
  cbn [slice_clks concat]. rewrite IH.
  replace (iter + clksz)%nat with (clksz + iter)%nat by lia.
  rewrite <- skipn_skipn, firstn_app_skipn. f_equal.
Qed.

(** X8.  The loop that fills [clks] cuts the first [n * clksz] elements of
    the buffer into [n] rows of [clksz] elements each, in order: the rows
    concatenated give those elements back, and row [i] starts at element
    [i * clksz]. *)
Theorem slice_clks_rows (n : nat) (buf : list Z) :
  (n * clksz <= length buf)%nat ->
  length (slice_clks n 0 buf) = n /\
  concat (slice_clks n 0 buf) = firstn (n * clksz) buf /\
  forall i, (i < n)%nat ->
    length (nth i (slice_clks n 0 buf) []) = clksz /\
    forall j, (j < clksz)%nat ->
      nth j (nth i (slice_clks n 0 buf) []) 0 = nth (i * clksz + j) buf 0.
Proof.
  intros Hlen. split; [apply slice_clks_length|].
  split; [apply slice_clks_concat|].
  intros i Hi. rewrite slice_clks_nth by assumption.
  split.
  - rewrite length_firstn, length_skipn. nia.
  - intros j Hj. rewrite nth_firstn.
    apply Nat.ltb_lt in Hj as ->. now rewrite nth_skipn.
Qed.

Lemma slice_clks_rows_witness :
  length (slice_clks 2 0 (repeat 5 1100)) = 2%nat /\
  concat (slice_clks 2 0 (repeat 5 1100)) = firstn (2 * clksz) (repeat 5 1100) /\
  forall i, (i < 2)%nat ->
    length (nth i (slice_clks 2 0 (repeat 5 1100)) []) = clksz /\
    forall j, (j < clksz)%nat ->
      nth j (nth i (slice_clks 2 0 (repeat 5 1100)) []) 0 =
        nth (i * clksz + j) (repeat 5 1100) 0.
Proof.
  apply (slice_clks_rows 2 (repeat 5 1100)).
  apply Nat.leb_le. vm_compute. reflexivity.
Defined.

(** ** [print_parameters] and [main] *)

Lemma string_app_assoc (s t u : string) :
  ((s ++ t) ++ u)%string = (s ++ t ++ u)%string.
Proof.
  induction s as [|c s IH]; [reflexivity|].
  change (String c ((s ++ t) ++ u)%string = String c (s ++ t ++ u)%string).
  now f_equal.
Qed.

(** The block [print_parameters] prints for a context of a named scheme. *)
Lemma print_parameters_block (noise : string) (c : SEALContext) (console : string) :
  scheme c <> other_scheme ->
  exists text,
    print_parameters noise (Some c) console = ((console ++ text)%string, None) /\
    text <> ""%string /\
    forall console', print_parameters noise (Some c) console' =
                       ((console' ++ text)%string, None).
Proof.
  intros Hs. unfold print_parameters.
  destruct (scheme c) eqn:E; try contradiction;
    cbn [scheme_name_of]; cbv beta iota zeta.
  - eexists. split; [|split].
    + rewrite !string_app_assoc. reflexivity.
    + discriminate.
    + intros console'. now rewrite !string_app_assoc.
  - eexists. split; [|split].
    + rewrite !string_app_assoc. reflexivity.
    + discriminate.
    + intros console'. now rewrite !string_app_assoc.
Qed.

(** X9.  [print_parameters] throws [invalid_argument] exactly for a null
    context and for a scheme that is neither BFV nor CKKS, and then it has
    printed nothing; otherwise it returns after appending one non-empty
    block to the console, the same block whatever was printed before. *)
Theorem print_parameters_all_or_nothing (noise : string)
    (context : option SEALContext) (console : string) :
  (context = None \/ (exists c, context = Some c /\ scheme c = other_scheme) <->
   exists what,
     print_parameters noise context console =
       (console, Some (invalid_argument what))) /\
  (forall c, context = Some c -> scheme c <> other_scheme ->
   exists text,
     print_parameters noise context console = ((console ++ text)%string, None) /\
     text <> ""%string /\
     forall console', print_parameters noise context console' =
                        ((console' ++ text)%string, None)).
Proof.
  split.
  - split.
    + intros [->|(c & -> & Hs)]; unfold print_parameters.
      * eexists. reflexivity.
      * rewrite Hs. eexists. reflexivity.
    + intros (what & H). destruct context as [c|]; [|now left].
      right. exists c. split; [reflexivity|].
      destruct (scheme c) eqn:E; try reflexivity; exfalso.
      * destruct (print_parameters_block noise c console) as (t & Ht & _);
          [congruence|]. rewrite Ht in H. discriminate.
      * destruct (print_parameters_block noise c console) as (t & Ht & _);
          [congruence|]. rewrite Ht in H. discriminate.
  - intros c -> Hs. now apply print_parameters_block.
Qed.

Lemma print_parameters_all_or_nothing_witness :
  (exists what,
     print_parameters "3.2" None "log" = ("log"%string, Some (invalid_argument what))) /\
  (exists text,
     print_parameters "3.2"
       (Some {| scheme := BFV; poly_modulus_degree := 4096;
                total_coeff_modulus_bit_count := 109;
                plain_modulus_value := 40961 |}) "log" =
       (("log" ++ text)%string, None) /\
     text <> ""%string /\
     forall console',
       print_parameters "3.2"
         (Some {| scheme := BFV; poly_modulus_degree := 4096;
                  total_coeff_modulus_bit_count := 109;
                  plain_modulus_value := 40961 |}) console' =
         ((console' ++ text)%string, None)).
Proof.
  split.
  - apply (proj1 (proj1 (print_parameters_all_or_nothing "3.2" None "log"))).
    left. reflexivity.
  - apply (proj2 (print_parameters_all_or_nothing "3.2"
                    (Some {| scheme := BFV; poly_modulus_degree := 4096;
                             total_coeff_modulus_bit_count := 109;
                             plain_modulus_value := 40961 |}) "log")
             _ eq_refl).
    simpl. discriminate.
Defined.

Example print_parameters_bfv :
  fst (print_parameters "3.2"
         (Some {| scheme := BFV; poly_modulus_degree := 4096;
                  total_coeff_modulus_bit_count := 109;
                  plain_modulus_value := 40961 |}) "") =
  ("/ Encryption parameters:" ++ endl ++ "| scheme: BFV" ++ endl
     ++ "| poly_modulus_degree: 4096" ++ endl
     ++ "| coeff_modulus size: 109 bits" ++ endl
     ++ "| plain_modulus: 40961" ++ endl
     ++ "\ noise_standard_deviation: 3.2" ++ endl ++ endl)%string.
Proof. reflexivity. Qed.

Lemma reference_length :
  length (flat_map (fun c => [dot c (nth 0 clks []); dot c (nth 1 clks [])]) clks)
  = (nclks * 2)%nat.
Proof. rewrite flat_map_pairs_length, clks_length. lia. Qed.

Lemma reference_value : mat_vec_prod clks = expected.
Proof. unfold expected. reflexivity. Qed.

(** X10.  [main] as a whole, for any engine.  With a null context or an
    unsupported scheme it prints nothing and ends with the exception of
    [print_parameters].  Otherwise it returns 0 and never reports a
    dimension error: after the parameter block and the four progress lines
    it prints nothing when the decrypted vector agrees with the reference
    of [mat_vec_prod] at every position, and otherwise exactly one line with
    the number of differing positions and the first of them; then
    [cleaning up...]. *)
Theorem main_verdict (noise : string) (context : option SEALContext)
    (written : nat -> Z) :
  (context = None \/ (exists c, context = Some c /\ scheme c = other_scheme) ->
   exists what,
     main noise context written = (""%string, Uncaught (invalid_argument what))) /\
  (forall c, context = Some c -> scheme c <> other_scheme ->
   exists header ref,
     print_parameters noise context "" = (header, None) /\
     expected = Ret ref /\
     length ref = (nclks * 2)%nat /\
     ((forall t, (t < nclks * 2)%nat -> written t = nth t ref 0) ->
      main noise context written =
        (((header ++ progress) ++ "cleaning up..." ++ endl)%string, Returns 0)) /\
     (forall j, (j < nclks * 2)%nat -> written j <> nth j ref 0 ->
        (forall i, (i < j)%nat -> written i = nth i ref 0) ->
        main noise context written =
          ((((header ++ progress) ++
             failures "emat  vec"
               (Z.of_nat (count_mismatch (tabulate (nclks * 2) written) ref))
               (Z.of_nat j)
               (Machine ref (tabulate (nclks * 2) written)
                  (header ++ progress) 0))
              ++ "cleaning up..." ++ endl)%string, Returns 0))).
Proof.
  split.
  - intros [->|(c & -> & Hs)]; unfold main, print_parameters.
    + eexists. reflexivity.
    + rewrite Hs. eexists. reflexivity.
  - intros c -> Hs.
    destruct (print_parameters_block noise c "" Hs) as (text & Hprint & _).
    exists (("" ++ text)%string),
      (flat_map (fun c => [dot c (nth 0 clks []); dot c (nth 1 clks [])]) clks).
    split; [exact Hprint|]. split; [apply expected_value|].
    split; [apply reference_length|].
    unfold main. rewrite Hprint.
    rewrite reference_value, expected_value.
    unfold main_check. cbv beta iota.
    set (ref := flat_map _ clks).
    set (console := (("" ++ text) ++ progress)%string).
    split.
    + intros Hall.
      assert (tabulate (nclks * 2) written = ref) as ->.
      { apply (nth_ext _ _ 0 0).
        - rewrite tabulate_length. symmetry. apply reference_length.
        - intros t Ht. rewrite tabulate_length in Ht.
          rewrite tabulate_nth by assumption. now apply Hall. }
      destruct (check_result_silent "emat  vec" (Machine ref ref console 0) eq_refl)
        as (m' & -> & (_ & _ & Hc & _)).
      cbv beta iota. now rewrite Hc.
    + intros j Hj Hne Hlt.
      destruct (check_result_reports "emat  vec"
                  (Machine ref (tabulate (nclks * 2) written) console 0) j)
        as (m' & -> & Hc & _); cbn [vec_output vec_expected].
      * rewrite tabulate_length. symmetry. apply reference_length.
      * rewrite tabulate_length, nclks_value. unfold INT_MAX. lia.
      * now rewrite tabulate_length.
      * now rewrite tabulate_nth.
      * intros i Hi. rewrite tabulate_nth by lia. now apply Hlt.
      * cbv beta iota. now rewrite Hc.
Qed.

Lemma main_verdict_witness :
  (exists what,
     main "3.2" None (fun _ => 0) = (""%string, Uncaught (invalid_argument what))) /\
  (exists header ref,
     print_parameters "3.2"
       (Some {| scheme := BFV; poly_modulus_degree := 4096;
                total_coeff_modulus_bit_count := 109;
                plain_modulus_value := 40961 |}) "" = (header, None) /\
     expected = Ret ref /\
     length ref = (nclks * 2)%nat).
Proof.
  split.
  - apply (proj1 (main_verdict "3.2" None (fun _ => 0))). left. reflexivity.
  - destruct (proj2 (main_verdict "3.2"
                       (Some {| scheme := BFV; poly_modulus_degree := 4096;
                                total_coeff_modulus_bit_count := 109;
                                plain_modulus_value := 40961 |})
                       (fun _ => 0)) _ eq_refl)
      as (header & ref & H1 & H2 & H3 & _).
    + simpl. discriminate.
    + exists header, ref. auto.
Defined.

(** ** The reference as a matrix product *)

Lemma nth_concat_uniform (len : nat) (l : list (list Z)) :
  forall i j,
    (forall c, In c l -> length c = len) ->
    (i < length l)%nat -> (j < len)%nat ->
    nth (i * len + j) (concat l) 0 = nth j (nth i l []) 0.
Proof.
  induction l as [|c l IH]; intros i j Hlen Hi Hj; [simpl in Hi; lia|].
  assert (length c = len) as Hc by (apply Hlen; now left).
  destruct i as [|i]; simpl concat.
  - simpl. rewrite app_nth1 by lia. reflexivity.
  - rewrite app_nth2 by (rewrite Hc; simpl; lia).
    rewrite Hc. replace (S i * len + j - len)%nat with (i * len + j)%nat
      by (simpl; lia).
    simpl nth. apply IH; [|simpl in Hi; lia|assumption].
    intros c' Hc'. apply Hlen. now right.
Qed.

(** X11.  For CLKs of one length [len], what [mat_vec_prod] returns is the
    matrix product of the [n x len] matrix of the CLKs with the [len x 2]
    matrix whose columns are CLK 0 and CLK 1: the product of the flattened
    CLKs, read row-major, with the same buffer read column after column. *)
Theorem mat_vec_prod_is_product (clks : list CLK) (len : nat) :
  (2 <= length clks)%nat ->
  (forall c, In c clks -> length c = len) ->
  (forall c, In c clks ->
     fits64 c (nth 0 clks []) 0 = true /\ fits64 c (nth 1 clks []) 0 = true) ->
  mat_vec_prod clks =
    Ret (mat_mul (concat clks) (concat clks) (length clks) len 2).
Proof.
  intros Hn Hlen Hfit.
  assert (0 < length clks)%nat as H0 by lia.
  assert (1 < length clks)%nat as H1 by lia.
  rewrite mat_vec_prod_ret; try assumption.
  - f_equal. apply (nth_ext _ _ 0 0).
    + unfold mat_mul. rewrite tabulate_length, flat_map_pairs_length. lia.
    + intros t Ht. rewrite flat_map_pairs_length in Ht.
      unfold mat_mul. rewrite tabulate_nth by lia.
      assert (t < length clks * 2)%nat as Ht' by lia.
      destruct (flat_index (length clks) 2 t Ht') as (Hi & Hc).
      pose proof (flat_map_pairs_nth (fun c => dot c (nth 0 clks []))
                    (fun c => dot c (nth 1 clks [])) [] clks (t / 2) Hi)
        as (E0 & E1).
      assert (forall c, (c < 2)%nat ->
                entry (concat clks) (concat clks) len (t / 2) c =
                  dot (nth (t / 2) clks []) (nth c clks [])) as Hentry.
      { intros c Hc2. rewrite dot_sum, (Hlen _ (nth_In clks [] Hi)).
        unfold entry. apply sum_upto_ext. intros j Hj.
        unfold row_major, column_major.
        rewrite !(nth_concat_uniform len) by (try assumption; lia).
        reflexivity. }
      pose proof (Nat.div_mod_eq t 2) as Ht2.
      destruct (t mod 2)%nat as [|[|k]] eqn:Em; [| |lia].
      * replace t with (2 * (t / 2))%nat at 1 by lia.
        rewrite E0. symmetry. apply Hentry. lia.
      * replace t with (2 * (t / 2) + 1)%nat at 1 by lia.
        rewrite E1. symmetry. apply Hentry. lia.
  - intros c Hc. rewrite (Hlen c Hc), (Hlen _ (nth_In clks [] H0)). reflexivity.
Qed.

Lemma mat_vec_prod_is_product_witness :
  mat_vec_prod [[1; 2; 3]; [4; 5; 6]; [7; 8; 9]] =
    Ret (mat_mul (concat [[1; 2; 3]; [4; 5; 6]; [7; 8; 9]])
                 (concat [[1; 2; 3]; [4; 5; 6]; [7; 8; 9]]) 3 3 2).
Proof.
  apply (mat_vec_prod_is_product [[1; 2; 3]; [4; 5; 6]; [7; 8; 9]] 3).
  - simpl. lia.
  - intros c [<-|[<-|[<-|[]]]]; reflexivity.
  - intros c [<-|[<-|[<-|[]]]]; split; reflexivity.
Defined.

(** ** Slicing what was concatenated *)

Lemma slice_clks_shift (pre : list Z) (n : nat) :
  forall iter buf,
    slice_clks n (length pre + iter) (pre ++ buf) = slice_clks n iter buf.
Proof.
  induction n as [|n IH]; intros iter buf; [reflexivity|].
  cbn [slice_clks]. f_equal.
  - rewrite (Nat.add_comm (length pre)), <- skipn_skipn.
    rewrite skipn_app, Nat.sub_diag, skipn_all. reflexivity.
  - rewrite <- Nat.add_assoc. apply IH.
Qed.

Lemma slice_clks_of_concat (rows : list CLK) :
  forall rest,
    (forall c, In c rows -> length c = clksz) ->
    slice_clks (length rows) 0 (concat rows ++ rest) = rows.
Proof.
  induction rows as [|c rows IH]; intros rest Hlen; [reflexivity|].
  assert (length c = clksz) as Hc by (apply Hlen; now left).
  cbn [length slice_clks concat]. rewrite <- app_assoc. f_equal.
  - change (skipn 0 ?l) with l.
    rewrite firstn_app, Hc, Nat.sub_diag, <- Hc, firstn_all. simpl.
    apply app_nil_r.
  - rewrite <- Hc. replace (0 + length c)%nat with (length c + 0)%nat by lia.
    rewrite slice_clks_shift. apply IH.
    intros c' Hc'. apply Hlen. now right.
Qed.

(** X12.  The slicing loop of [main] undoes the flattening of CLKs into one
    buffer: a buffer that starts with [n] rows of [clksz] elements each is
    cut back into exactly these rows, whatever follows them in the buffer,
    and the reference computed from the slices is the one of the rows. *)
Theorem slice_clks_inverse (rows : list CLK) (rest : list Z) :
  (forall c, In c rows -> length c = clksz) ->
  slice_clks (length rows) 0 (concat rows ++ rest) = rows /\
  mat_vec_prod (slice_clks (length rows) 0 (concat rows ++ rest)) =
    mat_vec_prod rows.
Proof.
  intros Hlen. rewrite (slice_clks_of_concat rows rest Hlen). now split.
Qed.

Lemma slice_clks_inverse_witness :
  slice_clks 2 0 (concat [repeat 1 512; repeat 2 512] ++ [7]) =
    [repeat 1 512; repeat 2 512] /\
  mat_vec_prod (slice_clks 2 0 (concat [repeat 1 512; repeat 2 512] ++ [7])) =
    mat_vec_prod [repeat 1 512; repeat 2 512].
Proof.
  apply (slice_clks_inverse [repeat 1 512; repeat 2 512] [7]).
  intros c [<-|[<-|[]]]; apply repeat_length.
Defined.
